(** * spiralizer: the Rcpp helpers of [src/spiral_rcpp.cpp]

    A shallow embedding of the three exported routines

    - [generate_spiral_cpp]      (Fermat spiral points),
    - [calculate_limits_cpp]     (symmetric plot limits),
    - [count_bounded_cells_cpp]  (bounded cell count),

    over IEEE 754 binary64 values, R matrices stored column-major and
    R logical vectors, followed by the properties of the specification. *)

From Stdlib Require Import ZArith Lia Bool String.
From Stdlib Require Import Floats.SpecFloat.
From stdpp Require Import base option numbers list.

Local Open Scope Z_scope.

(** ** C++ [double]: IEEE 754 binary64, round to nearest even *)

Module Double.

Definition prec : Z := 53.
Definition emax : Z := 1024.

(** A [double] is one of the values of [spec_float]; the payload and
    sign of a NaN are not distinguished.  Every operation rounds its
    own result: [a + i * b] is a product followed by a sum, not a
    fused multiply-add. *)
Definition double : Type := spec_float.

Definition nan : double := S754_nan.
Definition pinf : double := S754_infinity false.
Definition ninf : double := S754_infinity true.
Definition zero : double := S754_zero false.

Definition add : double -> double -> double := SFadd prec emax.
Definition sub : double -> double -> double := SFsub prec emax.
Definition mul : double -> double -> double := SFmul prec emax.
Definition div : double -> double -> double := SFdiv prec emax.
Definition opp : double -> double := SFopp.

(** [std::sqrt] and [std::abs] on [double]. *)
Definition sqrt : double -> double := SFsqrt prec emax.
Definition abs : double -> double := SFabs.

(** The comparisons [x < y], [x > y], [x <= y], [x == y] of C++; all
    are false as soon as one side is NaN. *)
Definition ltb (x y : double) : bool := SFltb x y.
Definition gtb (x y : double) : bool := SFltb y x.
Definition leb (x y : double) : bool := SFleb x y.
Definition eqb (x y : double) : bool := SFeqb x y.

Definition is_nan (x : double) : bool :=
  match x with S754_nan => true | _ => false end.

Definition is_finite (x : double) : bool :=
  match x with S754_zero _ | S754_finite _ _ _ => true | _ => false end.

(** Conversion of an [int] to [double] (exact below 2^53). *)
Definition of_int (z : Z) : double := binary_normalize prec emax z 0 false.

(** [std::ceil]: the least integral value not below [x].  NaN,
    infinities and zeros are returned as they are, a value in (-1, 0)
    gives -0.0. *)
Definition ceil (x : double) : double :=
  match x with
  | S754_finite s m e =>
      if 0 <=? e then x
      else
        let z := - ((- cond_Zopp s (Z.pos m)) / 2 ^ (- e)) in
        if z =? 0 then S754_zero s else binary_normalize prec emax z 0 s
  | _ => x
  end.

(** A finite value is a real [double] when its mantissa and exponent
    are in canonical form. *)
Definition valid (x : double) : bool := valid_binary prec emax x.

End Double.

Import Double.

(** The literals of the source. *)
Definition d0_0 : double := zero.
Definition d10_0 : double := of_int 10.

(** ** C++ [int] *)

Definition INT_MAX : Z := 2147483647.

(** [z++] on an [int]: signed overflow has no defined behaviour. *)
Definition int_incr (z : Z) : option Z :=
  if z <? INT_MAX then Some (z + 1) else None.

(** ** Rcpp containers *)

(** [NumericMatrix]: an R numeric matrix, [nrow * ncol] doubles stored
    column by column, with optional column names. *)
Record NumericMatrix : Type := mkMatrix {
  nrow : nat;
  ncol : nat;
  data : list double;
  colnames : option (list string)
}.

(** [NumericMatrix m(nr, nc)]: a zero-filled matrix.  R refuses a
    negative extent. *)
Definition matrix_alloc (nr nc : Z) : option NumericMatrix :=
  if (nr <? 0) || (nc <? 0) then None
  else Some (mkMatrix (Z.to_nat nr) (Z.to_nat nc)
               (replicate (Z.to_nat nr * Z.to_nat nc) d0_0) None).

(** [m(i, j)] is the element at offset [i + nrow * j]; the accessor is
    unchecked, so an offset outside the storage has no defined
    behaviour ([None]). *)
Definition offset (m : NumericMatrix) (i j : nat) : nat := (i + nrow m * j)%nat.

Definition mat_get (m : NumericMatrix) (i j : nat) : option double :=
  data m !! offset m i j.

Definition mat_set (m : NumericMatrix) (i j : nat) (v : double) : option NumericMatrix :=
  if decide (offset m i j < length (data m))%nat
  then Some (mkMatrix (nrow m) (ncol m) (<[offset m i j := v]> (data m)) (colnames m))
  else None.

(** [colnames(m) = names]. *)
Definition set_colnames (m : NumericMatrix) (names : list string) : NumericMatrix :=
  mkMatrix (nrow m) (ncol m) (data m) (Some names).

(** A point sequence, and the n x 2 matrix that holds it. *)
Abbreviation Point2D := (double * double)%type.

Definition matrix_of_points (names : option (list string)) (pts : list Point2D)
  : NumericMatrix :=
  mkMatrix (length pts) 2 (pts.*1 ++ pts.*2) names.

(** The matrices [calculate_limits_cpp] is meant for: two columns,
    fully stored. *)
Definition is_points_matrix (m : NumericMatrix) : Prop :=
  ncol m = 2%nat /\ length (data m) = (nrow m * 2)%nat.

(** [LogicalVector]: R logicals are stored as [int], with 0 for FALSE,
    1 for TRUE and a reserved value for NA. *)
Inductive Logical : Type := FALSE | TRUE | NA.

#[global] Instance Logical_eq_dec : EqDecision Logical.
Proof. solve_decision. Defined.

Abbreviation LogicalVector := (list Logical).

(** [!v[i]] converts the stored [int] to [bool]: only FALSE negates to
    true. *)
Definition logical_not (b : Logical) : bool :=
  match b with FALSE => true | TRUE | NA => false end.

(** ** Loops *)

(** [for (int i = start; i < start + k; i++) s = body(i, s)] where the
    bound is itself an [int], so that [i++] cannot overflow.  The loop
    stops with [None] at an iteration that has no defined behaviour. *)
Fixpoint for_loop {S : Type} (k : nat) (i : nat)
    (body : nat -> S -> option S) (s : S) : option S :=
  match k with
  | O => Some s
  | Datatypes.S k' => s' ← body i s; for_loop k' (Datatypes.S i) body s'
  end.

(** ** The exported functions *)

Section Spiral.

(** [std::cos] and [std::sin] come from the C library. *)
Variables cos sin : double -> double.

(** The body of the loop: the two cells of row [i]. *)
Definition spiral_body (angle_start step : double) (i : nat) (points : NumericMatrix)
  : option NumericMatrix :=
  let theta := add angle_start (mul (of_int (Z.of_nat i)) step) in
  let sqrt_theta := sqrt theta in
  points ← mat_set points i 0 (mul sqrt_theta (cos theta));
  mat_set points i 1 (mul sqrt_theta (sin theta)).

(** [generate_spiral_cpp]: allocate, compute the step, fill the rows,
    name the columns.  [None] is the R error of the allocation. *)
Definition generate_spiral_cpp (angle_start angle_end : double) (num_points : Z)
  : option NumericMatrix :=
  points ← matrix_alloc num_points 2;
  let step := div (sub angle_end angle_start) (of_int (num_points - 1)) in
  points ← for_loop (Z.to_nat num_points) 0 (spiral_body angle_start step) points;
  Some (set_colnames points ["x"; "y"]%string).

End Spiral.

(** The body of the scan: row [i] against the running scalar. *)
Definition limits_body (vertices : NumericMatrix) (i : nat) (max_abs : double)
  : option double :=
  x ← mat_get vertices i 0;
  y ← mat_get vertices i 1;
  let abs_x := abs x in
  let abs_y := abs y in
  let max_abs := if gtb abs_x max_abs then abs_x else max_abs in
  let max_abs := if gtb abs_y max_abs then abs_y else max_abs in
  Some max_abs.

(** [calculate_limits_cpp]: the default pair on no rows, otherwise
    the scan, the padding and the rounding up.  The result is the
    two-element vector [c(-limit, limit)]. *)
Definition calculate_limits_cpp (vertices : NumericMatrix) (padding : double)
  : option (list double) :=
  if (nrow vertices =? 0)%nat then Some [opp d10_0; d10_0]
  else
    max_abs ← for_loop (nrow vertices) 0 (limits_body vertices) d0_0;
    let limit := ceil (mul max_abs padding) in
    Some [opp limit; limit].

(** The loop of [count_bounded_cells_cpp], on the entries from index
    [i] on: the bound is an [R_xlen_t] while [i] and [count] are
    [int]s, so both increments can overflow. *)
Fixpoint count_loop (has_infinite : LogicalVector) (i count : Z) : option Z :=
  match has_infinite with
  | [] => Some count
  | b :: rest =>
      count ← (if logical_not b then int_incr count else Some count);
      i ← int_incr i;
      count_loop rest i count
  end.

Definition count_bounded_cells_cpp (has_infinite : LogicalVector) : option Z :=
  count_loop has_infinite 0 0.

(** * Vocabulary of the specification *)

(** ** Points of the spiral *)

(** The angle and the point of row [i], by the formulas of the
    specification. *)
Definition spiral_theta (angle_start angle_end : double) (num_points : Z) (i : nat)
  : double :=
  let step := div (sub angle_end angle_start) (of_int (num_points - 1)) in
  add angle_start (mul (of_int (Z.of_nat i)) step).

Definition spiral_point (cos sin : double -> double)
    (angle_start angle_end : double) (num_points : Z) (i : nat) : Point2D :=
  let theta := spiral_theta angle_start angle_end num_points i in
  (mul (sqrt theta) (cos theta), mul (sqrt theta) (sin theta)).

(** What the loop has established before iteration [j]: the shape is
    untouched and the rows below [j] hold their points. *)
Definition spiral_inv (P : nat -> Point2D) (N : nat) (j : nat) (m : NumericMatrix)
  : Prop :=
  nrow m = N /\ ncol m = 2%nat /\ colnames m = None /\
  length (data m) = (N * 2)%nat /\
  forall i, (i < j)%nat ->
    data m !! i = Some (P i).1 /\ data m !! (i + N)%nat = Some (P i).2.

(** ** The scan of [calculate_limits_cpp], row by row *)

(** One iteration of the scan, on the row itself. *)
Definition max_abs_step (max_abs : double) (p : Point2D) : double :=
  let max_abs := if gtb (abs p.1) max_abs then abs p.1 else max_abs in
  if gtb (abs p.2) max_abs then abs p.2 else max_abs.

(** The running scalar after the whole scan. *)
Definition running_max (pts : list Point2D) : double :=
  foldl max_abs_step d0_0 pts.

(** The update of the scalar by one coordinate. *)
Definition max1 (max_abs c : double) : double :=
  if gtb (abs c) max_abs then abs c else max_abs.

(** ** Signs *)

(** The values [std::abs] returns on a non-NaN argument: sign bit
    clear. *)
Definition nonneg (x : double) : bool :=
  match x with
  | S754_zero false | S754_infinity false | S754_finite false _ _ => true
  | _ => false
  end.

(** A value that is neither NaN nor of the other sign. *)
Definition signed (s : bool) (x : double) : Prop :=
  match x with
  | S754_zero s' | S754_infinity s' | S754_finite s' _ _ => s' = s
  | S754_nan => False
  end.

(** An infinity or a finite non-zero value of sign [s]. *)
Definition nonzero (s : bool) (x : double) : Prop :=
  x = S754_infinity s \/ exists m e, x = S754_finite s m e.

(** ** Maxima of absolute values *)

(** All the coordinates of a point sequence, x and y alike. *)
Definition coordinates (pts : list Point2D) : list double :=
  pts ≫= λ p, [p.1; p.2].

(** [m] is the maximum of the absolute values of [cs]: it is one of
    them and none exceeds it. *)
Definition is_max_abs (m : double) (cs : list double) : Prop :=
  (exists c, c ∈ cs /\ m = abs c) /\
  (forall c, c ∈ cs -> leb (abs c) m = true).

(** The same over the coordinates that are not NaN, with 0.0 when
    there is none. *)
Definition is_max_abs_non_nan (m : double) (cs : list double) : Prop :=
  match filter (λ c, is_nan c = false) cs with
  | [] => m = d0_0
  | cs' => is_max_abs m cs'
  end.

(** A NaN coordinate replaced by 0.0, in a coordinate and in a point. *)
Definition scrub (c : double) : double := if is_nan c then d0_0 else c.

Definition scrub_point (p : Point2D) : Point2D := (scrub p.1, scrub p.2).

(** ** Counting *)

(** The number of entries equal to FALSE. *)
Definition count_false (flags : LogicalVector) : Z :=
  Z.of_nat (length (filter (λ b, b = FALSE) flags)).

(** ** The claims that do not hold as they are worded *)

(** C2 as the specification words it: the bound comes from the maximum
    of the absolute values of all the coordinates. *)
Definition limits_from_max_abs (names : option (list string))
    (pts : list Point2D) (padding : double) : Prop :=
  exists m,
    is_max_abs m (coordinates pts) /\
    calculate_limits_cpp (matrix_of_points names pts) padding
    = Some [opp (ceil (mul m padding)); ceil (mul m padding)].


(** C6 as the specification words it: a NaN coordinate shows in the
    result. *)
Definition nan_propagates (names : option (list string))
    (pts : list Point2D) (padding : double) : Prop :=
  (exists c, c ∈ coordinates pts /\ is_nan c = true) ->
  exists lower upper,
    calculate_limits_cpp (matrix_of_points names pts) padding
    = Some [lower; upper] /\
    (is_nan lower = true \/ is_nan upper = true).

(** C4 as the specification words it: the result is the number of
    entries equal to FALSE. *)
Definition counts_false_entries (has_infinite : LogicalVector) : Prop :=
  count_bounded_cells_cpp has_infinite = Some (count_false has_infinite).

(** ** Vocabulary of the further properties *)

(** Two points that take the same room: the absolute values of their
    coordinates agree, in the same or in the other order.  Reflecting a
    point in an axis or swapping its x and y gives such a point. *)
Definition same_box (p q : Point2D) : Prop :=
  (abs q.1 = abs p.1 /\ abs q.2 = abs p.2) \/
  (abs q.1 = abs p.2 /\ abs q.2 = abs p.1).

(** A coordinate the points [pts] already cover: it is NaN, or some
    coordinate of [pts] that is not NaN is at least as large in
    absolute value. *)
Definition covered (pts : list Point2D) (c : double) : Prop :=
  is_nan c = true \/
  exists c', c' ∈ coordinates pts /\ is_nan c' = false /\
             leb (abs c) (abs c') = true.

(** The first two columns of a matrix at least two columns wide. *)
Definition first_two_columns (m : NumericMatrix) : NumericMatrix :=
  mkMatrix (nrow m) 2 (take (nrow m * 2) (data m)) (colnames m).

(** * Properties *)

(** ** Values *)

Example of_int_examples :
  of_int 0 = zero /\
  of_int 1 = S754_finite false 4503599627370496 (-52) /\
  of_int (-1) = opp (of_int 1) /\
  valid (of_int 2147483647) = true.
Proof. by vm_compute. Qed.

Example ceil_examples :
  ceil (div (of_int 1) (of_int 2)) = of_int 1 /\
  ceil (div (of_int (-1)) (of_int 2)) = S754_zero true /\
  ceil (div (of_int (-3)) (of_int 2)) = of_int (-1) /\
  ceil (div (of_int 11) (of_int 2)) = of_int 6 /\
  ceil (of_int 7) = of_int 7 /\
  ceil nan = nan /\ ceil pinf = pinf /\ ceil ninf = ninf.
Proof. by vm_compute. Qed.

(** ** Ordering of doubles *)

Lemma abs_nonneg x : is_nan x = false -> nonneg (abs x) = true.
Proof. by destruct x. Qed.

Lemma gtb_nan_l x : gtb nan x = false.
Proof. by destruct x. Qed.

Lemma compare_fin_fin m1 e1 m2 e2 :
  SFcompare (S754_finite false m1 e1) (S754_finite false m2 e2)
  = Some match e1 ?= e2 with Lt => Lt | Gt => Gt | Eq => (m1 ?= m2)%positive end.
Proof. reflexivity. Qed.

(** On sign-clear values the comparison is a total order whose
    equivalence is equality of representations. *)
Lemma leb_of_not_gtb a b :
  nonneg a = true -> nonneg b = true -> gtb a b = false -> leb a b = true.
Proof.
  unfold gtb, leb, SFltb, SFleb.
  destruct a as [[]|[]| |[] m1 e1], b as [[]|[]| |[] m2 e2]; try done.
  rewrite !compare_fin_fin. intros _ _.
  rewrite (Z.compare_antisym e1 e2), (Pos.compare_antisym m1 m2).
  destruct (e1 ?= e2); simpl; try done.
  by destruct (m1 ?= m2)%positive.
Qed.

Lemma leb_of_gtb a b : gtb b a = true -> leb a b = true.
Proof.
  unfold gtb, leb, SFltb, SFleb. by destruct (SFcompare a b) as [[]|].
Qed.

Lemma gtb_false_of_leb a b :
  nonneg a = true -> nonneg b = true -> leb a b = true -> gtb a b = false.
Proof.
  unfold gtb, leb, SFltb, SFleb.
  destruct a as [[]|[]| |[] m1 e1], b as [[]|[]| |[] m2 e2]; try done.
  rewrite !compare_fin_fin. intros _ _.
  rewrite (Z.compare_antisym e1 e2), (Pos.compare_antisym m1 m2).
  destruct (e1 ?= e2); simpl; try done.
  by destruct (m1 ?= m2)%positive.
Qed.

Lemma leb_refl a : nonneg a = true -> leb a a = true.
Proof.
  unfold leb, SFleb. destruct a as [[]|[]| |[] m e]; try done.
  intros _. by rewrite compare_fin_fin, Z.compare_refl, Pos.compare_refl.
Qed.

Lemma leb_antisym a b :
  nonneg a = true -> nonneg b = true ->
  leb a b = true -> leb b a = true -> a = b.
Proof.
  unfold leb, SFleb.
  destruct a as [[]|[]| |[] m1 e1], b as [[]|[]| |[] m2 e2]; try done.
  rewrite !compare_fin_fin. intros _ _.
  destruct (Z.compare_spec e1 e2) as [?|?|?];
    destruct (Z.compare_spec e2 e1) as [?|?|?]; try done; try lia.
  destruct (Pos.compare_spec m1 m2) as [?|?|?];
    destruct (Pos.compare_spec m2 m1) as [?|?|?]; try done; try lia.
  intros _ _. by subst.
Qed.

Lemma leb_trans a b c :
  nonneg a = true -> nonneg b = true -> nonneg c = true ->
  leb a b = true -> leb b c = true -> leb a c = true.
Proof.
  unfold leb, SFleb.
  destruct a as [[]|[]| |[] m1 e1], b as [[]|[]| |[] m2 e2],
    c as [[]|[]| |[] m3 e3]; try done.
  rewrite !compare_fin_fin. intros _ _ _.
  destruct (Z.compare_spec e1 e2) as [?|?|?]; try done;
    destruct (Z.compare_spec e2 e3) as [?|?|?]; try done;
    destruct (Z.compare_spec e1 e3) as [?|?|?]; try done; try lia.
  destruct (Pos.compare_spec m1 m2) as [?|?|?]; try done;
    destruct (Pos.compare_spec m2 m3) as [?|?|?]; try done;
    destruct (Pos.compare_spec m1 m3) as [?|?|?]; try done; lia.
Qed.

Lemma zero_leb a : nonneg a = true -> leb zero a = true.
Proof. by destruct a as [[]|[]| |[] m e]. Qed.

Lemma leb_zero_inv a : nonneg a = true -> leb a zero = true -> a = zero.
Proof. by destruct a as [[]|[]| |[] m e]. Qed.

(** ** Loops and matrices *)

(** Invariant rule for [for_loop]: every iteration succeeds and the
    invariant is carried to the exit. *)
Lemma for_loop_inv {S : Type} (I : nat -> S -> Prop) body k : forall i (s : S),
  I i s ->
  (forall j t, (i <= j < i + k)%nat -> I j t ->
     exists t', body j t = Some t' /\ I (Datatypes.S j) t') ->
  exists s', for_loop k i body s = Some s' /\ I (i + k)%nat s'.
Proof.
  induction k as [|k IH]; intros i s Hi Hstep.
  - exists s. by rewrite Nat.add_0_r.
  - destruct (Hstep i s ltac:(lia) Hi) as (t & Ht & HI).
    destruct (IH (Datatypes.S i) t HI) as (s' & Hs' & HI').
    { intros j u Hj. apply Hstep. lia. }
    exists s'. simpl. rewrite Ht. simpl. split; [done|].
    by replace (i + Datatypes.S k)%nat with (Datatypes.S i + k)%nat by lia.
Qed.

(** Reading the two cells of a row of a point matrix. *)
Lemma mat_get_points names pts i p :
  pts !! i = Some p ->
  mat_get (matrix_of_points names pts) i 0 = Some p.1 /\
  mat_get (matrix_of_points names pts) i 1 = Some p.2.
Proof.
  intros Hp. pose proof (lookup_lt_Some _ _ _ Hp) as Hi.
  unfold mat_get, offset. simpl. rewrite Nat.mul_0_r, Nat.add_0_r, Nat.mul_1_r.
  split.
  - rewrite lookup_app_l by by rewrite length_fmap.
    by rewrite list_lookup_fmap, Hp.
  - rewrite lookup_app_r by (rewrite length_fmap; lia).
    rewrite length_fmap, list_lookup_fmap.
    replace (i + length pts - length pts)%nat with i by lia.
    by rewrite Hp.
Qed.

(** Every n x 2 matrix is the matrix of its rows. *)
Lemma points_matrix_rows m :
  is_points_matrix m ->
  exists pts, m = matrix_of_points (colnames m) pts /\ length pts = nrow m.
Proof.
  destruct m as [nr nc d cn]. unfold is_points_matrix.
  cbn [nrow ncol data colnames]. intros [-> Hlen].
  exists (zip (take nr d) (drop nr d)).
  assert (length (take nr d) = nr) as Ht by (rewrite length_take; lia).
  assert (length (drop nr d) = nr) as Hd by (rewrite length_drop; lia).
  unfold matrix_of_points.
  rewrite length_zip_with, Ht, Hd, Nat.min_id.
  rewrite fst_zip, snd_zip, take_drop by lia. done.
Qed.

(** ** [calculate_limits_cpp] on a point sequence *)

Lemma limits_body_points names pts i p acc :
  pts !! i = Some p ->
  limits_body (matrix_of_points names pts) i acc = Some (max_abs_step acc p).
Proof.
  intros Hp. unfold limits_body.
  by destruct (mat_get_points names pts i p Hp) as [-> ->].
Qed.

Lemma limits_loop names pre : forall suf acc,
  for_loop (length suf) (length pre)
    (limits_body (matrix_of_points names (pre ++ suf))) acc
  = Some (foldl max_abs_step acc suf).
Proof.
  intros suf. revert pre.
  induction suf as [|p suf IH]; intros pre acc; [done|].
  cbn [length for_loop foldl].
  rewrite (limits_body_points _ _ _ p) by by rewrite list_lookup_middle.
  cbn [mbind option_bind].
  specialize (IH (pre ++ [p])). rewrite length_app in IH. simpl in IH.
  rewrite <- (assoc_L (++)) in IH. simpl in IH.
  replace (length pre + 1)%nat with (Datatypes.S (length pre)) in IH by lia.
  apply IH.
Qed.

Lemma calculate_limits_points names pts padding :
  calculate_limits_cpp (matrix_of_points names pts) padding
  = Some match pts with
         | [] => [opp d10_0; d10_0]
         | _ :: _ =>
             [opp (ceil (mul (running_max pts) padding));
              ceil (mul (running_max pts) padding)]
         end.
Proof.
  unfold calculate_limits_cpp. destruct pts as [|p pts]; [done|].
  pose proof (limits_loop names [] (p :: pts) d0_0) as Hloop.
  cbn [app length] in Hloop.
  change (nrow (matrix_of_points names (p :: pts)))
    with (Datatypes.S (length pts)).
  cbn [Nat.eqb]. by rewrite Hloop.
Qed.

Lemma calculate_limits_running_max names pts padding :
  pts <> [] ->
  calculate_limits_cpp (matrix_of_points names pts) padding
  = Some [opp (ceil (mul (running_max pts) padding));
          ceil (mul (running_max pts) padding)].
Proof. intros Hne. rewrite calculate_limits_points. by destruct pts. Qed.

(** On every n x 2 matrix the call returns a pair. *)
Lemma calculate_limits_total m padding :
  is_points_matrix m ->
  exists lower upper, calculate_limits_cpp m padding = Some [lower; upper].
Proof.
  intros (pts & -> & _)%points_matrix_rows.
  rewrite calculate_limits_points. destruct pts; eauto.
Qed.

(** *** The running scalar is a maximum *)

Lemma max_abs_step_max1 acc p : max_abs_step acc p = max1 (max1 acc p.1) p.2.
Proof. reflexivity. Qed.

Lemma foldl_max_abs_step pts : forall acc,
  foldl max_abs_step acc pts = foldl max1 acc (coordinates pts).
Proof.
  induction pts as [|p pts IH]; intros acc; [done|].
  simpl. by rewrite IH.
Qed.

Lemma max1_nan acc c : is_nan c = true -> max1 acc c = acc.
Proof. destruct c; try done. intros _. unfold max1. simpl. by rewrite gtb_nan_l. Qed.

Lemma max1_cases acc c :
  max1 acc c = acc \/ (is_nan c = false /\ max1 acc c = abs c).
Proof.
  unfold max1. destruct (gtb (abs c) acc) eqn:Hgt; [|by left].
  right. split; [|done]. destruct c; try done. by rewrite gtb_nan_l in Hgt.
Qed.

Lemma max1_nonneg acc c : nonneg acc = true -> nonneg (max1 acc c) = true.
Proof.
  intros Hacc. destruct (max1_cases acc c) as [->|[Hc ->]]; [done|].
  by apply abs_nonneg.
Qed.

Lemma max1_ge_acc acc c : nonneg acc = true -> leb acc (max1 acc c) = true.
Proof.
  intros Hacc. unfold max1. destruct (gtb (abs c) acc) eqn:Hgt.
  - by apply leb_of_gtb.
  - by apply leb_refl.
Qed.

Lemma max1_ge_coord acc c :
  nonneg acc = true -> is_nan c = false -> leb (abs c) (max1 acc c) = true.
Proof.
  intros Hacc Hc. unfold max1. destruct (gtb (abs c) acc) eqn:Hgt.
  - apply leb_refl. by apply abs_nonneg.
  - apply leb_of_not_gtb; [by apply abs_nonneg|done|done].
Qed.

Lemma foldl_max1_nonneg cs : forall acc,
  nonneg acc = true -> nonneg (foldl max1 acc cs) = true.
Proof.
  induction cs as [|c cs IH]; intros acc Hacc; [done|].
  simpl. apply IH. by apply max1_nonneg.
Qed.

Lemma foldl_max1_ge_acc cs : forall acc,
  nonneg acc = true -> leb acc (foldl max1 acc cs) = true.
Proof.
  induction cs as [|c cs IH]; intros acc Hacc; [by apply leb_refl|].
  simpl. apply (leb_trans _ (max1 acc c)); auto using max1_nonneg, max1_ge_acc,
    foldl_max1_nonneg.
Qed.

Lemma foldl_max1_upper cs : forall acc c,
  nonneg acc = true -> c ∈ cs -> is_nan c = false ->
  leb (abs c) (foldl max1 acc cs) = true.
Proof.
  induction cs as [|c' cs IH]; intros acc c Hacc Hin Hc.
  - by apply elem_of_nil in Hin.
  - simpl. apply elem_of_cons in Hin as [->|Hin].
    + apply (leb_trans _ (max1 acc c'));
        auto using abs_nonneg, max1_nonneg, max1_ge_coord, foldl_max1_nonneg,
          foldl_max1_ge_acc.
    + apply IH; auto using max1_nonneg.
Qed.

Lemma foldl_max1_attained cs : forall acc,
  foldl max1 acc cs = acc \/
  exists c, c ∈ cs /\ is_nan c = false /\ foldl max1 acc cs = abs c.
Proof.
  induction cs as [|c cs IH]; intros acc; [by left|].
  simpl. destruct (IH (max1 acc c)) as [->|(c' & Hin & Hc' & ->)].
  - destruct (max1_cases acc c) as [->|[Hc ->]]; [by left|].
    right. exists c. split; [left|done].
  - right. exists c'. split; [by right|done].
Qed.

Lemma running_max_fold pts : running_max pts = foldl max1 d0_0 (coordinates pts).
Proof. apply foldl_max_abs_step. Qed.

Lemma running_max_nonneg pts : nonneg (running_max pts) = true.
Proof. rewrite running_max_fold. by apply foldl_max1_nonneg. Qed.

(** The scalar left by the scan is the maximum over the coordinates
    that are not NaN. *)
Lemma running_max_is_max pts :
  is_max_abs_non_nan (running_max pts) (coordinates pts).
Proof.
  unfold is_max_abs_non_nan. rewrite running_max_fold.
  set (cs := coordinates pts).
  destruct (filter (λ c, is_nan c = false) cs) as [|c0 cs'] eqn:Hf.
  - destruct (foldl_max1_attained cs d0_0) as [->|(c & Hin & Hc & _)]; [done|].
    assert (c ∈ filter (λ c, is_nan c = false) cs) as Hc'
      by by apply list_elem_of_filter.
    rewrite Hf in Hc'. by apply elem_of_nil in Hc'.
  - rewrite <- Hf. split.
    + destruct (foldl_max1_attained cs d0_0) as [Heq|(c & Hin & Hc & Heq)].
      * assert (c0 ∈ filter (λ c, is_nan c = false) cs) as Hc0
          by (rewrite Hf; left).
        exists c0. split; [done|].
        apply list_elem_of_filter in Hc0 as [Hnan Hin].
        rewrite Heq. symmetry. apply leb_zero_inv; [by apply abs_nonneg|].
        change zero with d0_0. rewrite <- Heq. by apply foldl_max1_upper.
      * exists c. split; [by apply list_elem_of_filter|done].
    + intros c [Hnan Hin]%list_elem_of_filter. by apply foldl_max1_upper.
Qed.

(** A maximum, when there is one, is unique. *)
Lemma is_max_abs_unique m m' cs cs' :
  (forall c, c ∈ cs <-> c ∈ cs') ->
  (forall c, c ∈ cs -> is_nan c = false) ->
  is_max_abs m cs -> is_max_abs m' cs' -> m = m'.
Proof.
  intros Hsame Hnan [(c & Hc & ->) Hub] [(c' & Hc' & ->) Hub'].
  apply leb_antisym.
  - apply abs_nonneg, Hnan, Hc.
  - apply abs_nonneg, Hnan, Hsame, Hc'.
  - apply Hub', Hsame, Hc.
  - apply Hub, Hsame, Hc'.
Qed.

Lemma is_max_abs_non_nan_unique m m' cs cs' :
  (forall c, c ∈ cs <-> c ∈ cs') ->
  is_max_abs_non_nan m cs -> is_max_abs_non_nan m' cs' -> m = m'.
Proof.
  intros Hsame. unfold is_max_abs_non_nan.
  set (f := filter (λ c, is_nan c = false) cs).
  set (f' := filter (λ c, is_nan c = false) cs').
  assert (forall c, c ∈ f <-> c ∈ f') as Hsame'.
  { intros c. unfold f, f'. rewrite !list_elem_of_filter. by rewrite Hsame. }
  assert (forall c, c ∈ f -> is_nan c = false) as Hnan.
  { intros c. unfold f. rewrite list_elem_of_filter. tauto. }
  destruct f as [|c0 f0] eqn:Hf, f' as [|c0' f0'] eqn:Hf'.
  - congruence.
  - exfalso. eapply elem_of_nil, Hsame'. left.
  - exfalso. eapply elem_of_nil, Hsame'. left.
  - by apply is_max_abs_unique.
Qed.

(** ** Signs through rounding *)

Lemma iter_pos_inv {A : Type} (P : A -> Prop) (f : A -> A) :
  (forall x, P x -> P (f x)) -> forall p x, P x -> P (SpecFloat.iter_pos f p x).
Proof.
  intros Hf. induction p as [p IH|p IH|]; intros x Hx; simpl; auto.
Qed.

Lemma shr_1_nonneg mrs : 0 <= shr_m mrs -> 0 <= shr_m (shr_1 mrs).
Proof.
  destruct mrs as [m r s]. simpl. destruct m as [|[p|p|]|p]; simpl; lia.
Qed.

Lemma shr_nonneg mrs e n : 0 <= shr_m mrs -> 0 <= shr_m (shr mrs e n).1.
Proof.
  intros Hm. destruct n as [|p|p]; simpl; try done.
  apply (iter_pos_inv (λ x, 0 <= shr_m x)); auto using shr_1_nonneg.
Qed.

Lemma shr_fexp_nonneg m e l : 0 <= m -> 0 <= shr_m (shr_fexp prec emax m e l).1.
Proof.
  intros Hm. unfold shr_fexp. apply shr_nonneg.
  by destruct l as [|[]].
Qed.

Lemma round_nearest_even_nonneg m l : 0 <= m -> 0 <= round_nearest_even m l.
Proof.
  intros Hm. unfold round_nearest_even.
  destruct l as [|[]]; try done; [destruct (Z.even m)|]; lia.
Qed.

(** Rounding a non-negative mantissa keeps the sign it is given. *)
Lemma binary_round_aux_signed sx mx ex lx :
  0 <= mx -> signed sx (binary_round_aux prec emax sx mx ex lx).
Proof.
  intros Hm. unfold binary_round_aux.
  pose proof (shr_fexp_nonneg mx ex lx Hm) as H1.
  destruct (shr_fexp prec emax mx ex lx) as [mrs' e'].
  pose proof (shr_fexp_nonneg
    (round_nearest_even (shr_m mrs') (loc_of_shr_record mrs')) e' loc_Exact
    (round_nearest_even_nonneg _ _ H1)) as H2.
  destruct (shr_fexp prec emax _ e' loc_Exact) as [mrs'' e''].
  simpl in H2. destruct (shr_m mrs'') as [|p|p]; [done| |lia].
  by destruct (e'' <=? emax - prec).
Qed.

Lemma binary_round_signed sx mx ex : signed sx (binary_round prec emax sx mx ex).
Proof.
  unfold binary_round. destruct (shl_align _ _ _) as [mz ez].
  by apply binary_round_aux_signed.
Qed.




(** ** Rounding does not reach zero *)

Lemma digits2_pos_bounds m :
  2 ^ (Z.pos (digits2_pos m) - 1) <= Z.pos m < 2 ^ Z.pos (digits2_pos m).
Proof.
  induction m as [m IH|m IH|]; cbn [digits2_pos]; [| |done].
  - rewrite Pos2Z.inj_succ.
    replace (Z.succ (Z.pos (digits2_pos m)) - 1)
      with (Z.succ (Z.pos (digits2_pos m) - 1)) by lia.
    rewrite !Z.pow_succ_r by lia. lia.
  - rewrite Pos2Z.inj_succ.
    replace (Z.succ (Z.pos (digits2_pos m)) - 1)
      with (Z.succ (Z.pos (digits2_pos m) - 1)) by lia.
    rewrite !Z.pow_succ_r by lia. lia.
Qed.

Lemma shr_1_lower j mrs :
  0 <= j -> 2 ^ (j + 1) <= shr_m mrs -> 2 ^ j <= shr_m (shr_1 mrs).
Proof.
  intros Hj. rewrite Z.pow_add_r, Z.pow_1_r by lia.
  assert (0 < 2 ^ j) by (apply Z.pow_pos_nonneg; lia).
  destruct mrs as [m r s]. simpl. destruct m as [|[p|p|]|p]; simpl; lia.
Qed.

Lemma iter_shr_1_lower p : forall j mrs,
  0 <= j -> 2 ^ (j + Z.pos p) <= shr_m mrs ->
  2 ^ j <= shr_m (SpecFloat.iter_pos shr_1 p mrs).
Proof.
  induction p as [p IH|p IH|]; intros j mrs Hj Hm; cbn [SpecFloat.iter_pos].
  - apply IH; [done|]. apply IH; [lia|]. apply shr_1_lower; [lia|].
    by replace (j + Z.pos p + Z.pos p + 1) with (j + Z.pos p~1) by lia.
  - apply IH; [done|]. apply IH; [lia|].
    by replace (j + Z.pos p + Z.pos p) with (j + Z.pos p~0) by lia.
  - by apply shr_1_lower.
Qed.

(** Above the least exponent, the shift to the target exponent leaves
    a non-zero mantissa non-zero. *)
Lemma shr_fexp_pos m e l :
  1 <= m -> SpecFloat.emin prec emax <= e ->
  1 <= shr_m (shr_fexp prec emax m e l).1 /\
  SpecFloat.emin prec emax <= (shr_fexp prec emax m e l).2.
Proof.
  intros Hm He. destruct m as [|p|p]; try lia.
  unfold shr_fexp, shr. cbn [Zdigits2].
  pose proof (digits2_pos_bounds p) as Hd.
  assert (shr_m (shr_record_of_loc (Z.pos p) l) = Z.pos p) as Hrec
    by by destruct l as [|[]].
  destruct (fexp prec emax (Z.pos (digits2_pos p) + e) - e) as [|k|k] eqn:Hk;
    cbn [fst snd]; rewrite ?Hrec; try (split; lia).
  unfold fexp, SpecFloat.emin, prec, emax in *.
  split; [|lia].
  change 1 with (2 ^ 0). apply iter_shr_1_lower; [done|]. rewrite Hrec.
  transitivity (2 ^ (Z.pos (digits2_pos p) - 1)); [|lia].
  apply Z.pow_le_mono_r; lia.
Qed.

Lemma round_nearest_even_ge m l : m <= round_nearest_even m l.
Proof.
  unfold round_nearest_even.
  destruct l as [|[]]; try lia. destruct (Z.even m); lia.
Qed.

(** A non-zero mantissa above the least exponent rounds to a non-zero
    value. *)
Lemma binary_round_aux_nonzero sx mx ex lx :
  1 <= mx -> SpecFloat.emin prec emax <= ex ->
  nonzero sx (binary_round_aux prec emax sx mx ex lx).
Proof.
  intros Hm He. unfold binary_round_aux.
  destruct (shr_fexp_pos mx ex lx Hm He) as [H1 He1].
  destruct (shr_fexp prec emax mx ex lx) as [mrs' e']. cbn [fst snd] in *.
  pose proof (round_nearest_even_ge (shr_m mrs') (loc_of_shr_record mrs')) as Hr.
  destruct (shr_fexp_pos
              (round_nearest_even (shr_m mrs') (loc_of_shr_record mrs'))
              e' loc_Exact ltac:(lia) He1) as [H2 _].
  destruct (shr_fexp prec emax _ e' loc_Exact) as [mrs'' e''].
  cbn [fst snd] in *. destruct (shr_m mrs'') as [|p|p]; try lia.
  destruct (e'' <=? emax - prec); [right; eauto|by left].
Qed.

Lemma pos_iter_xO m d : Z.pos (Pos.iter xO m d) = Z.pos m * 2 ^ Z.pos d.
Proof.
  induction d as [|d IH] using Pos.peano_ind.
  - cbn [Pos.iter]. lia.
  - rewrite Pos.iter_succ, Pos2Z.inj_xO, IH, Pos2Z.inj_succ, Z.pow_succ_r by lia.
    lia.
Qed.

Lemma shl_align_value m e ez :
  ez <= e -> Z.pos (shl_align m e ez).1 = Z.pos m * 2 ^ (e - ez).
Proof.
  intros Hle. unfold shl_align.
  destruct (ez - e) as [|d|d] eqn:Hd; cbn [fst]; try lia.
  - replace (e - ez) with 0 by lia. lia.
  - replace (e - ez) with (Z.pos d) by lia. apply pos_iter_xO.
Qed.

Lemma binary_round_nonzero sx mx ex :
  SpecFloat.emin prec emax <= ex -> nonzero sx (binary_round prec emax sx mx ex).
Proof.
  intros He. unfold binary_round, shl_align.
  destruct (fexp prec emax (Z.pos (digits2_pos mx) + ex) - ex) as [|d|d] eqn:Hd;
    apply binary_round_aux_nonzero; try done; try lia.
  unfold fexp. lia.
Qed.

(** The exponent of a double is at least the least exponent, and a
    value has one canonical representation only. *)
Lemma valid_emin s m e :
  valid (S754_finite s m e) = true -> SpecFloat.emin prec emax <= e.
Proof.
  unfold valid, valid_binary, bounded, canonical_mantissa.
  intros [Hc _]%andb_prop. apply Z.eqb_eq in Hc. unfold fexp in Hc. lia.
Qed.

Lemma digits2_pos_unique m d :
  2 ^ (d - 1) <= Z.pos m < 2 ^ d -> d = Z.pos (digits2_pos m).
Proof.
  intros [Hlo Hhi]. pose proof (digits2_pos_bounds m) as [Hlo' Hhi'].
  assert (0 < d).
  { destruct (decide (0 < d)); [done|]. exfalso.
    destruct (decide (d = 0)) as [->|]; [simpl in Hhi; lia|].
    rewrite Z.pow_neg_r in Hhi by lia. lia. }
  assert (d - 1 < Z.pos (digits2_pos m)).
  { apply (Z.pow_lt_mono_r_iff 2); lia. }
  assert (Z.pos (digits2_pos m) - 1 < d).
  { apply (Z.pow_lt_mono_r_iff 2); lia. }
  lia.
Qed.

Lemma canonical_shift m1 e1 m2 e2 :
  valid (S754_finite false m1 e1) = true ->
  valid (S754_finite false m2 e2) = true ->
  e1 <= e2 -> Z.pos m1 = Z.pos m2 * 2 ^ (e2 - e1) ->
  e1 = e2 /\ m1 = m2.
Proof.
  unfold valid, valid_binary, bounded, canonical_mantissa.
  intros [Hc1 _]%andb_prop [Hc2 _]%andb_prop Hle Hm.
  apply Z.eqb_eq in Hc1, Hc2.
  pose proof (digits2_pos_bounds m2) as [Hlo Hhi].
  assert (0 < 2 ^ (e2 - e1)) as Hpow by (apply Z.pow_pos_nonneg; lia).
  assert (Z.pos (digits2_pos m2) + (e2 - e1) = Z.pos (digits2_pos m1)) as Hd.
  { apply digits2_pos_unique. rewrite Hm.
    replace (Z.pos (digits2_pos m2) + (e2 - e1) - 1)
      with (Z.pos (digits2_pos m2) - 1 + (e2 - e1)) by lia.
    rewrite !Z.pow_add_r by lia. nia. }
  assert (e1 = e2) as ->.
  { replace (Z.pos (digits2_pos m1) + e1)
      with (Z.pos (digits2_pos m2) + e2) in Hc1 by lia. congruence. }
  split; [done|]. rewrite Z.sub_diag in Hm. simpl in Hm. lia.
Qed.

Lemma SFeqb_finite_inv s1 m1 e1 s2 m2 e2 :
  SFeqb (S754_finite s1 m1 e1) (S754_finite s2 m2 e2) = true ->
  s1 = s2 /\ e1 = e2 /\ m1 = m2.
Proof.
  unfold SFeqb, SFcompare.
  change (Pos.compare_cont Eq m1 m2) with (m1 ?= m2)%positive.
  destruct s1, s2; try done;
    destruct (Z.compare_spec e1 e2) as [->|?|?]; try done;
    destruct (Pos.compare_spec m1 m2) as [->|?|?]; done.
Qed.

Lemma SFeqb_finite_refl s m e :
  SFeqb (S754_finite s m e) (S754_finite s m e) = true.
Proof.
  unfold SFeqb, SFcompare.
  change (Pos.compare_cont Eq m m) with (m ?= m)%positive.
  rewrite Z.compare_refl, Pos.compare_refl. by destruct s.
Qed.

(** The difference of two finite doubles is zero exactly when they
    compare equal: there is no underflow to zero. *)
Lemma sub_finite_valid sb mb eb sa ma ea :
  valid (S754_finite sb mb eb) = true ->
  valid (S754_finite sa ma ea) = true ->
  (SFeqb (S754_finite sb mb eb) (S754_finite sa ma ea) = true /\
   sub (S754_finite sb mb eb) (S754_finite sa ma ea) = S754_zero false) \/
  (SFeqb (S754_finite sb mb eb) (S754_finite sa ma ea) = false /\
   exists s, nonzero s (sub (S754_finite sb mb eb) (S754_finite sa ma ea))).
Proof.
  intros Hvb Hva.
  pose proof (valid_emin _ _ _ Hvb) as Heb.
  pose proof (valid_emin _ _ _ Hva) as Hea.
  unfold sub, SFsub. cbv zeta.
  set (ez := Z.min eb ea).
  rewrite (shl_align_value mb eb ez), (shl_align_value ma ea ez) by lia.
  assert (0 < 2 ^ (eb - ez)) as Hpb by (apply Z.pow_pos_nonneg; lia).
  assert (0 < 2 ^ (ea - ez)) as Hpa by (apply Z.pow_pos_nonneg; lia).
  destruct (cond_Zopp sb (Z.pos mb * 2 ^ (eb - ez))
            - cond_Zopp sa (Z.pos ma * 2 ^ (ea - ez))) as [|d|d] eqn:Hd;
    cbn [binary_normalize].
  - left. split; [|done].
    assert (sb = sa /\ Z.pos mb * 2 ^ (eb - ez) = Z.pos ma * 2 ^ (ea - ez))
      as [-> Hm].
    { destruct sb, sa; cbn [cond_Zopp] in Hd; split; try done; nia. }
    assert (eb = ea /\ mb = ma) as [-> ->].
    { destruct (Z.le_ge_cases eb ea) as [Hle|Hle].
      - replace ez with eb in Hm by lia. rewrite Z.sub_diag in Hm.
        apply (canonical_shift mb eb ma ea); [exact Hvb|exact Hva|done|].
        simpl in Hm. lia.
      - replace ez with ea in Hm by lia. rewrite Z.sub_diag in Hm.
        destruct (canonical_shift ma ea mb eb) as [-> ->];
          [exact Hva|exact Hvb|lia|simpl in Hm; lia|done]. }
    apply SFeqb_finite_refl.
  - right. split.
    + destruct (SFeqb _ _) eqn:Heq; [|done].
      apply SFeqb_finite_inv in Heq as (-> & -> & ->). lia.
    + exists false. apply binary_round_nonzero. lia.
  - right. split.
    + destruct (SFeqb _ _) eqn:Heq; [|done].
      apply SFeqb_finite_inv in Heq as (-> & -> & ->). lia.
    + exists true. apply binary_round_nonzero. lia.
Qed.

Lemma div_nonzero_by_zero s x :
  nonzero s x -> div x (of_int 0) = pinf \/ div x (of_int 0) = ninf.
Proof.
  intros [->|(m & e & ->)]; destruct s; simpl; auto.
Qed.

(** With one point the step is NaN when the two angles compare equal
    and an infinity otherwise. *)
Lemma single_step_cases a b :
  is_finite a = true -> is_finite b = true ->
  valid a = true -> valid b = true ->
  if eqb b a then div (sub b a) (of_int 0) = nan
  else div (sub b a) (of_int 0) = pinf \/ div (sub b a) (of_int 0) = ninf.
Proof.
  intros Hfa Hfb Hva Hvb.
  destruct b as [sb|sb| |sb mb eb], a as [sa|sa| |sa ma ea]; try done.
  - by destruct sb, sa.
  - destruct sa; simpl; auto.
  - destruct sb; simpl; auto.
  - unfold eqb.
    destruct (sub_finite_valid sb mb eb sa ma ea Hvb Hva)
      as [[-> ->]|[-> [s Hs]]]; [done|].
    by apply (div_nonzero_by_zero s).
Qed.

(** ** [generate_spiral_cpp] fills the matrix row by row *)

Section SpiralPoints.

Variables cos sin : double -> double.

Lemma spiral_body_inv a b n (N j : nat) m :
  (j < N)%nat ->
  spiral_inv (spiral_point cos sin a b n) N j m ->
  exists m',
    spiral_body cos sin a (div (sub b a) (of_int (n - 1))) j m = Some m' /\
    spiral_inv (spiral_point cos sin a b n) N (Datatypes.S j) m'.
Proof.
  intros Hj (Hnr & Hnc & Hcn & Hlen & Hrows).
  unfold spiral_body, mat_set, offset. cbn [nrow data].
  rewrite Hnr, Nat.mul_0_r, Nat.add_0_r.
  rewrite decide_True by lia. cbn [mbind option_bind nrow data ncol colnames].
  rewrite Nat.mul_1_r, length_insert.
  rewrite decide_True by lia.
  eexists. split; [done|].
  repeat split; cbn [nrow ncol data colnames]; try done.
  - by rewrite !length_insert.
  - destruct (decide (i = j)) as [->|Hne].
    + rewrite list_lookup_insert_ne by lia.
      by rewrite list_lookup_insert_eq by lia.
    + rewrite !list_lookup_insert_ne by lia. apply Hrows. lia.
  - destruct (decide (i = j)) as [->|Hne].
    + by rewrite list_lookup_insert_eq by (rewrite length_insert; lia).
    + rewrite !list_lookup_insert_ne by lia. apply Hrows. lia.
Qed.

Lemma spiral_inv_exit P N m :
  spiral_inv P N N m ->
  set_colnames m ["x"; "y"]%string
  = matrix_of_points (Some ["x"; "y"]%string) (P <$> seq 0 N).
Proof.
  intros (Hnr & Hnc & Hcn & Hlen & Hrows).
  destruct m as [nr nc d cn]. cbn [nrow ncol data colnames] in *. subst.
  unfold set_colnames, matrix_of_points. cbn [nrow ncol data].
  rewrite length_fmap, length_seq. f_equal.
  apply (list_eq_same_length _ _ (N * 2)%nat); [|done|].
  { rewrite length_app, !length_fmap, length_seq. lia. }
  intros i x y Hi Hx Hy.
  destruct (decide (i < N)%nat) as [HiN|HiN].
  - destruct (Hrows i HiN) as [Hx' _].
    rewrite lookup_app_l in Hy by (rewrite !length_fmap, length_seq; lia).
    rewrite !list_lookup_fmap, lookup_seq_lt in Hy by done.
    simpl in Hy. congruence.
  - destruct (Hrows (i - N)%nat ltac:(lia)) as [_ Hy'].
    replace (i - N + N)%nat with i in Hy' by lia.
    rewrite lookup_app_r in Hy by (rewrite !length_fmap, length_seq; lia).
    rewrite !length_fmap, length_seq in Hy.
    rewrite !list_lookup_fmap, lookup_seq_lt in Hy by lia.
    simpl in Hy. congruence.
Qed.

(** The result is the matrix of the specified points, labelled
    "x" and "y". *)
Lemma generate_spiral_points a b n :
  0 <= n ->
  generate_spiral_cpp cos sin a b n
  = Some (matrix_of_points (Some ["x"; "y"]%string)
            (spiral_point cos sin a b n <$> seq 0 (Z.to_nat n))).
Proof.
  intros Hn. unfold generate_spiral_cpp, matrix_alloc.
  replace (n <? 0) with false by (symmetry; apply Z.ltb_ge; lia).
  cbn [orb Z.ltb Z.compare mbind option_bind].
  set (N := Z.to_nat n).
  set (m0 := mkMatrix N (Z.to_nat 2) _ None).
  destruct (for_loop_inv (spiral_inv (spiral_point cos sin a b n) N)
              (spiral_body cos sin a (div (sub b a) (of_int (n - 1))))
              N 0%nat m0) as (m & Hm & Hinv).
  - unfold m0, spiral_inv. cbn [nrow ncol data colnames].
    rewrite length_replicate. repeat split; try done; lia.
  - intros j t Hj Hinv. apply spiral_body_inv; [lia|done].
  - rewrite Hm. cbn [mbind option_bind]. f_equal.
    by apply spiral_inv_exit.
Qed.

End SpiralPoints.

(** ** [count_bounded_cells_cpp] *)

Lemma count_false_cons b flags :
  count_false (b :: flags)
  = (if logical_not b then 1 else 0) + count_false flags.
Proof.
  unfold count_false. rewrite filter_cons.
  destruct b; simpl; lia.
Qed.

Lemma count_false_bounds flags :
  0 <= count_false flags <= Z.of_nat (length flags).
Proof.
  unfold count_false. pose proof (length_filter (λ b, b = FALSE) flags). lia.
Qed.

(** While the index stays within [int], the loop adds the number of
    FALSE entries to the counter. *)
Lemma count_loop_spec flags : forall i count,
  0 <= count <= i ->
  i + Z.of_nat (length flags) <= INT_MAX ->
  count_loop flags i count = Some (count + count_false flags).
Proof.
  induction flags as [|b flags IH]; intros i count Hc Hlen.
  - simpl. f_equal. unfold count_false. simpl. lia.
  - rewrite count_false_cons. cbn [count_loop]. cbn [length] in Hlen.
    unfold int_incr.
    replace (i <? INT_MAX) with true by (symmetry; apply Z.ltb_lt; lia).
    destruct (logical_not b).
    + replace (count <? INT_MAX) with true by (symmetry; apply Z.ltb_lt; lia).
      cbn [mbind option_bind]. rewrite IH by lia. f_equal; lia.
    + cbn [mbind option_bind]. rewrite IH by lia. f_equal; lia.
Qed.

(** Past [INT_MAX] entries the index overflows. *)
Lemma count_loop_overflow flags : forall i count,
  i <= INT_MAX -> INT_MAX < i + Z.of_nat (length flags) ->
  count_loop flags i count = None.
Proof.
  induction flags as [|b flags IH]; intros i count Hi Hlen.
  - simpl in Hlen. lia.
  - cbn [count_loop]. cbn [length] in Hlen.
    destruct (if logical_not b then int_incr count else Some count) as [c|];
      [|done].
    cbn [mbind option_bind]. unfold int_incr.
    destruct (i <? INT_MAX) eqn:Hlt; [|done].
    cbn [mbind option_bind]. apply Z.ltb_lt in Hlt. apply IH; lia.
Qed.

(** * The claims of the specification *)

(** ** SpiralGenerator *)

Lemma sqrt_negative theta : ltb theta zero = true -> sqrt theta = nan.
Proof. by destruct theta as [[]|[]| |[] m e]. Qed.

Lemma mul_nan_l x : mul nan x = nan.
Proof. by destruct x. Qed.

(** C1: for [num_points >= 2], row [i] of the result of
    [generate_spiral_cpp] is [(sqrt theta * cos theta, sqrt theta * sin theta)]
    with [theta = angle_start + i * step] and
    [step = (angle_end - angle_start) / (num_points - 1)]; when [theta]
    is negative both coordinates of the row are NaN. *)
Theorem generate_spiral_rows (cos sin : double -> double)
    (angle_start angle_end : double) (num_points : Z) :
  2 <= num_points ->
  exists points,
    generate_spiral_cpp cos sin angle_start angle_end num_points = Some points /\
    forall i, (i < Z.to_nat num_points)%nat ->
      let step := div (sub angle_end angle_start) (of_int (num_points - 1)) in
      let theta := add angle_start (mul (of_int (Z.of_nat i)) step) in
      mat_get points i 0 = Some (mul (sqrt theta) (cos theta)) /\
      mat_get points i 1 = Some (mul (sqrt theta) (sin theta)) /\
      (ltb theta zero = true ->
       mat_get points i 0 = Some nan /\ mat_get points i 1 = Some nan).
Proof.
  intros Hn. eexists. split; [apply generate_spiral_points; lia|].
  intros i Hi step theta.
  destruct (mat_get_points (Some ["x"; "y"]%string)
              (spiral_point cos sin angle_start angle_end num_points
                 <$> seq 0 (Z.to_nat num_points)) i
              (spiral_point cos sin angle_start angle_end num_points i))
    as [Hx Hy].
  { by rewrite list_lookup_fmap, lookup_seq_lt. }
  rewrite Hx, Hy. subst step theta.
  unfold spiral_point, spiral_theta. cbn [fst snd].
  split; [done|]. split; [done|].
  intros Hneg. by rewrite (sqrt_negative _ Hneg), !mul_nan_l.
Qed.

(** The witnesses run the loop with [abs] and [opp] standing for the
    two library functions. *)
Lemma generate_spiral_rows_witness :
  exists points,
    generate_spiral_cpp abs opp (of_int (-4)) (of_int 4) 3 = Some points /\
    forall i, (i < Z.to_nat 3)%nat ->
      let step := div (sub (of_int 4) (of_int (-4))) (of_int (3 - 1)) in
      let theta := add (of_int (-4)) (mul (of_int (Z.of_nat i)) step) in
      mat_get points i 0 = Some (mul (sqrt theta) (abs theta)) /\
      mat_get points i 1 = Some (mul (sqrt theta) (opp theta)) /\
      (ltb theta zero = true ->
       mat_get points i 0 = Some nan /\ mat_get points i 1 = Some nan).
Proof. apply (generate_spiral_rows abs opp (of_int (-4)) (of_int 4) 3). lia. Defined.

(** The run of that witness: the angles are -4, 0 and 4, and the row
    of the negative angle is (NaN, NaN). *)
Example generate_spiral_ex :
  generate_spiral_cpp abs opp (of_int (-4)) (of_int 4) 3
  = Some (mkMatrix 3 2
            [nan; zero; of_int 8; nan; S754_zero true; of_int (-8)]
            (Some ["x"; "y"]%string)).
Proof. by vm_compute. Qed.

(** C7: for [num_points >= 2] the result has exactly [num_points] rows
    of two cells each, in columns labelled "x" and "y". *)
Theorem generate_spiral_shape (cos sin : double -> double)
    (angle_start angle_end : double) (num_points : Z) :
  2 <= num_points ->
  exists points,
    generate_spiral_cpp cos sin angle_start angle_end num_points = Some points /\
    Z.of_nat (nrow points) = num_points /\
    ncol points = 2%nat /\
    length (data points) = (nrow points * ncol points)%nat /\
    colnames points = Some ["x"; "y"]%string /\
    forall i, (i < nrow points)%nat ->
      exists x y, mat_get points i 0 = Some x /\ mat_get points i 1 = Some y.
Proof.
  intros Hn. eexists. split; [apply generate_spiral_points; lia|].
  cbn [matrix_of_points nrow ncol data colnames].
  rewrite length_app, !length_fmap, length_seq.
  repeat split; try done; try lia.
  intros i Hi.
  destruct (mat_get_points (Some ["x"; "y"]%string)
              (spiral_point cos sin angle_start angle_end num_points
                 <$> seq 0 (Z.to_nat num_points)) i
              (spiral_point cos sin angle_start angle_end num_points i))
    as [Hx Hy].
  { by rewrite list_lookup_fmap, lookup_seq_lt. }
  eauto.
Qed.

Lemma generate_spiral_shape_witness :
  exists points,
    generate_spiral_cpp abs opp (of_int 0) (of_int 4) 2 = Some points /\
    Z.of_nat (nrow points) = 2 /\
    ncol points = 2%nat /\
    length (data points) = (nrow points * ncol points)%nat /\
    colnames points = Some ["x"; "y"]%string /\
    forall i, (i < nrow points)%nat ->
      exists x y, mat_get points i 0 = Some x /\ mat_get points i 1 = Some y.
Proof. apply (generate_spiral_shape abs opp (of_int 0) (of_int 4) 2). lia. Defined.

Lemma div_by_zero x :
  div x (of_int 0) = pinf \/ div x (of_int 0) = ninf \/ div x (of_int 0) = nan.
Proof. destruct x as [[]|[]| |[] m e]; simpl; auto. Qed.

Lemma mul_zero_not_finite x :
  x = pinf \/ x = ninf \/ x = nan -> mul (of_int 0) x = nan.
Proof. by intros [->|[->| ->]]. Qed.

Lemma add_nan_r x : add x nan = nan.
Proof. by destruct x. Qed.

(** C10: with [num_points = 1] the call does not fail; the step is a
    division by zero, which gives an infinity, or NaN when the two
    angles are equal; [theta = angle_start + 0 * step] is then NaN and
    the single row is (NaN, NaN). *)
Theorem generate_spiral_single (cos sin : double -> double)
    (angle_start angle_end : double) :
  let step := div (sub angle_end angle_start) (of_int (1 - 1)) in
  let theta := add angle_start (mul (of_int 0) step) in
  generate_spiral_cpp cos sin angle_start angle_end 1
  = Some (mkMatrix 1 2 [nan; nan] (Some ["x"; "y"]%string)) /\
  (step = pinf \/ step = ninf \/ step = nan) /\
  (is_finite angle_start = true /\ is_finite angle_end = true /\
   valid angle_start = true /\ valid angle_end = true ->
   if eqb angle_end angle_start then step = nan
   else step = pinf \/ step = ninf) /\
  theta = nan.
Proof.
  intros step theta.
  assert (step = pinf \/ step = ninf \/ step = nan) as Hstep
    by apply div_by_zero.
  assert (theta = nan) as Htheta.
  { unfold theta. by rewrite (mul_zero_not_finite step), add_nan_r. }
  repeat split; try done.
  - rewrite generate_spiral_points by lia.
    change (Z.to_nat 1) with 1%nat. cbn [seq fmap list_fmap].
    unfold spiral_point.
    change (spiral_theta angle_start angle_end 1 0) with theta.
    by rewrite Htheta.
  - intros (Hfa & Hfb & Hva & Hvb). by apply single_step_cases.
Qed.

(** Two angles a long way apart, two equal angles, and the two zeros:
    the step is +inf, NaN and NaN. *)
Example generate_spiral_single_steps :
  div (sub (of_int 4) (of_int 0)) (of_int (1 - 1)) = pinf /\
  div (sub (of_int 4) (of_int 4)) (of_int (1 - 1)) = nan /\
  div (sub (S754_zero true) zero) (of_int (1 - 1)) = nan.
Proof. by vm_compute. Qed.

(** ** LimitCalculator *)

(** The literal 10.0 is exact: 10 * 2^49 * 2^-49. *)
Example d10_0_exact :
  d10_0 = S754_finite false 5629499534213120 (-49) /\
  Z.pos 5629499534213120 = 10 * 2 ^ 49 /\ valid d10_0 = true.
Proof. by vm_compute. Qed.

(** The examples of the specification. *)
Example calculate_limits_ex1 :
  calculate_limits_cpp
    (matrix_of_points None
       [(of_int 3, of_int 4); (of_int (-5), of_int 1)]) (of_int 1)
  = Some [of_int (-5); of_int 5].
Proof. by vm_compute. Qed.

Example calculate_limits_ex2 :
  calculate_limits_cpp (matrix_of_points None [(of_int 1, of_int 1)]) (of_int 2)
  = Some [of_int (-2); of_int 2].
Proof. by vm_compute. Qed.

(** With the default padding 1.1 the bound is rounded up:
    ceil (5 * 1.1) = 6. *)
Example calculate_limits_ex3 :
  calculate_limits_cpp
    (matrix_of_points None
       [(of_int 3, of_int 4); (of_int (-5), of_int 1)])
    (div (of_int 11) (of_int 10))
  = Some [of_int (-6); of_int 6].
Proof. by vm_compute. Qed.

(** Against C2 as worded: a sequence whose coordinates are all NaN
    has NaN as the only candidate maximum, yet the bounds are -0.0 and
    0.0: the scalar is still the 0.0 it started from. *)
Lemma limits_from_max_abs_all_nan :
  calculate_limits_cpp (matrix_of_points None [(nan, nan)]) (of_int 1)
  = Some [S754_zero true; S754_zero false] /\
  ~ limits_from_max_abs None [(nan, nan)] (of_int 1).
Proof.
  split; [by vm_compute|].
  intros (m & [(c & Hc & ->) _] & Hres).
  assert (c = nan) as ->.
  { cbn in Hc. by repeat apply elem_of_cons in Hc as [->|Hc];
      [..|apply elem_of_nil in Hc]. }
  vm_compute in Hres. discriminate Hres.
Qed.

(** C2 (amended): for a non-empty point sequence the result is
    [(-bound, bound)] with [bound = ceil (m * padding)], where [m] is
    the maximum of the absolute values of the x and y coordinates that
    are not NaN, taken over all points at once, and 0.0 when every
    coordinate is NaN. *)
Theorem calculate_limits_max_abs (names : option (list string))
    (pts : list Point2D) (padding : double) :
  pts <> [] ->
  exists m,
    is_max_abs_non_nan m (coordinates pts) /\
    calculate_limits_cpp (matrix_of_points names pts) padding
    = Some [opp (ceil (mul m padding)); ceil (mul m padding)].
Proof.
  intros Hne. exists (running_max pts). split.
  - apply running_max_is_max.
  - by apply calculate_limits_running_max.
Qed.

Lemma calculate_limits_max_abs_witness :
  exists m,
    is_max_abs_non_nan m
      (coordinates [(of_int 3, nan); (of_int (-5), of_int 1)]) /\
    calculate_limits_cpp
      (matrix_of_points None [(of_int 3, nan); (of_int (-5), of_int 1)])
      (of_int 1)
    = Some [opp (ceil (mul m (of_int 1))); ceil (mul m (of_int 1))].
Proof.
  apply (calculate_limits_max_abs None
           [(of_int 3, nan); (of_int (-5), of_int 1)] (of_int 1)).
  discriminate.
Defined.

Lemma filter_non_nan_all (cs : list double) :
  (forall c, c ∈ cs -> is_nan c = false) ->
  filter (λ c, is_nan c = false) cs = cs.
Proof.
  induction cs as [|c cs IH]; intros Hall; [done|].
  rewrite filter_cons_True by (apply Hall; left).
  f_equal. apply IH. intros c' Hc'. apply Hall. by right.
Qed.

(** Without NaN coordinates the amended maximum is the plain one, so
    C2 holds there as it is worded. *)
Lemma calculate_limits_max_abs_no_nan names pts padding :
  pts <> [] ->
  (forall c, c ∈ coordinates pts -> is_nan c = false) ->
  limits_from_max_abs names pts padding.
Proof.
  intros Hne Hnan.
  exists (running_max pts). split; [|by apply calculate_limits_running_max].
  pose proof (running_max_is_max pts) as Hm.
  unfold is_max_abs_non_nan in Hm.
  rewrite filter_non_nan_all in Hm by done.
  destruct pts as [|p pts]; [done|]. exact Hm.
Qed.

(** C3: on a matrix with no rows the result is the fixed pair
    (-10.0, 10.0), whatever the padding. *)
Theorem calculate_limits_empty (vertices : NumericMatrix) (padding : double) :
  nrow vertices = 0%nat ->
  calculate_limits_cpp vertices padding = Some [opp (of_int 10); of_int 10].
Proof. intros Hn. unfold calculate_limits_cpp. by rewrite Hn. Qed.

Lemma calculate_limits_empty_witness :
  calculate_limits_cpp (matrix_of_points None []) (div (of_int 11) (of_int 10))
  = Some [opp (of_int 10); of_int 10].
Proof.
  apply (calculate_limits_empty (matrix_of_points None [])
           (div (of_int 11) (of_int 10))).
  reflexivity.
Defined.



(** Against C6 as worded: the point (NaN, 1) with padding 1.0 gives
    (-1.0, 1.0). *)
Lemma limits_nan_coordinate_ignored :
  calculate_limits_cpp (matrix_of_points None [(nan, of_int 1)]) (of_int 1)
  = Some [of_int (-1); of_int 1] /\
  ~ nan_propagates None [(nan, of_int 1)] (of_int 1).
Proof.
  split; [by vm_compute|].
  intros Hprop. destruct Hprop as (lower & upper & Hres & Hnan).
  { exists nan. split; [cbn; left|done]. }
  vm_compute in Hres. injection Hres as <- <-. by destruct Hnan.
Qed.

Lemma max1_scrub acc c : nonneg acc = true -> max1 acc (scrub c) = max1 acc c.
Proof.
  intros Hacc. unfold scrub. destruct (is_nan c) eqn:Hc; [|done].
  rewrite (max1_nan acc c Hc). unfold max1.
  change (abs d0_0) with zero.
  by rewrite (gtb_false_of_leb zero acc eq_refl Hacc (zero_leb acc Hacc)).
Qed.

Lemma running_max_scrub pts : running_max (scrub_point <$> pts) = running_max pts.
Proof.
  unfold running_max. generalize d0_0 (eq_refl : nonneg d0_0 = true).
  induction pts as [|p pts IH]; intros acc Hacc; [done|].
  cbn [fmap list_fmap foldl]. rewrite !max_abs_step_max1.
  cbn [scrub_point fst snd].
  rewrite !max1_scrub by auto using max1_nonneg.
  apply IH. auto using max1_nonneg.
Qed.

(** C6 (amended): [calculate_limits_cpp] has no failure path, and a
    NaN coordinate does not reach the result: the comparison skips it,
    and the pair is the one computed with every NaN coordinate replaced
    by 0.0. *)
Theorem calculate_limits_skips_nan (names : option (list string))
    (pts : list Point2D) (padding : double) :
  exists lower upper,
    calculate_limits_cpp (matrix_of_points names pts) padding
    = Some [lower; upper] /\
    calculate_limits_cpp (matrix_of_points names (scrub_point <$> pts)) padding
    = Some [lower; upper].
Proof.
  rewrite !calculate_limits_points, running_max_scrub.
  destruct pts as [|p pts]; cbn [fmap list_fmap]; eauto.
Qed.

(** The running scalar depends on the set of rows only. *)
Lemma running_max_same_rows pts pts' :
  (forall p, p ∈ pts <-> p ∈ pts') -> running_max pts = running_max pts'.
Proof.
  intros Hsame.
  apply (is_max_abs_non_nan_unique _ _ (coordinates pts) (coordinates pts'));
    auto using running_max_is_max.
  intros c. unfold coordinates. rewrite !list_elem_of_bind.
  split; intros (p & Hc & Hp); exists p; (split; [done|]); by apply Hsame.
Qed.

(** C8: the result does not depend on the order of the rows, and a
    row that repeats one already present does not change it. *)
Theorem calculate_limits_order_independent (names names' : option (list string))
    (pts pts' : list Point2D) (p : Point2D) (padding : double) :
  (pts ≡ₚ pts' ->
   calculate_limits_cpp (matrix_of_points names pts) padding
   = calculate_limits_cpp (matrix_of_points names' pts') padding) /\
  (p ∈ pts ->
   calculate_limits_cpp (matrix_of_points names (p :: pts)) padding
   = calculate_limits_cpp (matrix_of_points names' pts) padding).
Proof.
  rewrite !calculate_limits_points. split.
  - intros Hperm.
    rewrite (running_max_same_rows pts pts') by (intros q; by rewrite Hperm).
    destruct pts as [|q pts], pts' as [|q' pts']; try done.
    + by apply Permutation_nil_cons in Hperm.
    + symmetry in Hperm. by apply Permutation_nil_cons in Hperm.
  - intros Hin.
    rewrite (running_max_same_rows (p :: pts) pts).
    + destruct pts as [|q pts]; [by apply elem_of_nil in Hin|done].
    + intros q. rewrite elem_of_cons. split; [by intros [->|?]|by right].
Qed.

Lemma calculate_limits_order_independent_witness :
  calculate_limits_cpp
    (matrix_of_points None [(of_int 3, of_int 4); (of_int (-5), of_int 1)])
    (of_int 1)
  = calculate_limits_cpp
      (matrix_of_points None [(of_int (-5), of_int 1); (of_int 3, of_int 4)])
      (of_int 1) /\
  calculate_limits_cpp
    (matrix_of_points None
       [(of_int 3, of_int 4); (of_int 3, of_int 4); (of_int (-5), of_int 1)])
    (of_int 1)
  = calculate_limits_cpp
      (matrix_of_points None [(of_int 3, of_int 4); (of_int (-5), of_int 1)])
      (of_int 1).
Proof.
  split.
  - apply (proj1 (calculate_limits_order_independent None None
             [(of_int 3, of_int 4); (of_int (-5), of_int 1)]
             [(of_int (-5), of_int 1); (of_int 3, of_int 4)]
             (of_int 3, of_int 4) (of_int 1))).
    apply perm_swap.
  - apply (proj2 (calculate_limits_order_independent None None
             [(of_int 3, of_int 4); (of_int (-5), of_int 1)]
             [] (of_int 3, of_int 4) (of_int 1))).
    left.
Defined.

(** ** BoundedCellCounter *)

(** The examples of the specification; NA is not FALSE and is not
    counted. *)
Example count_bounded_ex :
  count_bounded_cells_cpp [] = Some 0 /\
  count_bounded_cells_cpp [FALSE; FALSE; TRUE] = Some 2 /\
  count_bounded_cells_cpp [TRUE; TRUE] = Some 0 /\
  count_bounded_cells_cpp [FALSE; NA; FALSE] = Some 2.
Proof. by vm_compute. Qed.

(** Against C4 as worded: on a long vector of 2^31 entries the [int]
    index is incremented past [INT_MAX], and no [int] could hold the
    count 2^31 of a vector that is FALSE throughout. *)
Lemma count_bounded_long_vector :
  count_bounded_cells_cpp (replicate (Z.to_nat 2147483648) FALSE) = None /\
  ~ counts_false_entries (replicate (Z.to_nat 2147483648) FALSE).
Proof.
  assert (count_bounded_cells_cpp (replicate (Z.to_nat 2147483648) FALSE) = None)
    as Hnone.
  { apply count_loop_overflow; [done|].
    rewrite length_replicate, Z2Nat.id by done. done. }
  split; [done|]. unfold counts_false_entries. by rewrite Hnone.
Qed.

(** C4 (amended): for every flag vector of at most [INT_MAX] entries,
    [count_bounded_cells_cpp] returns the number of entries equal to
    FALSE; the empty vector gives 0.  On such a vector the call always
    returns, and returns nothing but the count. *)
Theorem count_bounded_counts_false (has_infinite : LogicalVector) :
  Z.of_nat (length has_infinite) <= INT_MAX ->
  count_bounded_cells_cpp has_infinite = Some (count_false has_infinite) /\
  count_bounded_cells_cpp [] = Some 0.
Proof.
  intros Hlen. split; [|done].
  unfold count_bounded_cells_cpp. by rewrite count_loop_spec by lia.
Qed.

Lemma count_bounded_counts_false_witness :
  count_bounded_cells_cpp [FALSE; FALSE; TRUE]
  = Some (count_false [FALSE; FALSE; TRUE]) /\
  count_bounded_cells_cpp [] = Some 0.
Proof.
  apply (count_bounded_counts_false [FALSE; FALSE; TRUE]).
  vm_compute. discriminate.
Defined.

(** ** Dependence on the library functions *)

(** The points depend on [cos] and [sin] through their values only. *)
Lemma spiral_point_ext cos sin cos' sin' a b n i :
  (forall x, cos x = cos' x) -> (forall x, sin x = sin' x) ->
  spiral_point cos sin a b n i = spiral_point cos' sin' a b n i.
Proof. intros Hcos Hsin. unfold spiral_point. by rewrite Hcos, Hsin. Qed.

(** Two versions of [cos] and [sin] with the same values give the
    same spiral. *)
Lemma generate_spiral_ext cos sin cos' sin' a b n :
  (forall x, cos x = cos' x) -> (forall x, sin x = sin' x) ->
  generate_spiral_cpp cos sin a b n = generate_spiral_cpp cos' sin' a b n.
Proof.
  intros Hcos Hsin. destruct (decide (0 <= n)) as [Hn|Hn].
  - rewrite !generate_spiral_points by done. do 2 f_equal.
    apply list_fmap_ext. intros i j _. by apply spiral_point_ext.
  - unfold generate_spiral_cpp, matrix_alloc.
    by replace (n <? 0) with true by (symmetry; apply Z.ltb_lt; lia).
Qed.

(** * Further properties of the three functions *)

(** ** Loops, again *)

(** Two bodies that agree on the indices of the loop run the same
    loop. *)
Lemma for_loop_ext {S : Type} (f g : nat -> S -> option S) k : forall i (s : S),
  (forall j t, (i <= j < i + k)%nat -> f j t = g j t) ->
  for_loop k i f s = for_loop k i g s.
Proof.
  induction k as [|k IH]; intros i s Hfg; [done|].
  cbn [for_loop]. rewrite Hfg by lia.
  destruct (g i s) as [t|]; [|done]. cbn [mbind option_bind].
  apply IH. intros j u Hj. apply Hfg. lia.
Qed.

(** An iteration without defined behaviour is never passed. *)
Lemma for_loop_fail {S : Type} (f : nat -> S -> option S) k : forall i (s : S) j,
  (i <= j < i + k)%nat -> (forall t, f j t = None) ->
  for_loop k i f s = None.
Proof.
  induction k as [|k IH]; intros i s j Hj Hfail; [lia|].
  cbn [for_loop]. destruct (decide (j = i)) as [->|Hne].
  - by rewrite Hfail.
  - destruct (f i s) as [t|]; [|done]. cbn [mbind option_bind].
    apply (IH _ _ j); [lia|done].
Qed.

(** ** SpiralGenerator: degenerate angles and counts *)

Lemma of_int_positive z : 0 < z -> nonzero false (of_int z).
Proof.
  intros Hz. destruct z as [|p|p]; try lia.
  unfold of_int, binary_normalize. by apply binary_round_nonzero.
Qed.

Lemma of_int_nonneg_cases z :
  0 <= z -> of_int z = zero \/ nonzero false (of_int z).
Proof.
  intros Hz. destruct (decide (z = 0)) as [->|Hne]; [by left|].
  right. apply of_int_positive. lia.
Qed.

(** An angle that starts at NaN or at an infinity, or ends at NaN,
    stays NaN at every index. *)
Lemma spiral_theta_nonfinite a b n i :
  1 <= n -> is_finite a = false \/ is_nan b = true ->
  spiral_theta a b n i = nan.
Proof.
  intros Hn Hab. unfold spiral_theta. cbv zeta.
  destruct (of_int_nonneg_cases (n - 1) ltac:(lia)) as [->|[->|(m1 & e1 & ->)]];
    destruct (of_int_nonneg_cases (Z.of_nat i) ltac:(lia))
      as [->|[->|(m2 & e2 & ->)]];
    destruct Hab as [Ha|Hb];
    destruct a as [sa|[]| |sa ma ea], b as [sb|[]| |sb mb eb]; done.
Qed.

(** X1: when [angle_start] is NaN or infinite, or [angle_end] is NaN,
    every row of a spiral of at least one point is (NaN, NaN). *)
Theorem generate_spiral_nonfinite (cos sin : double -> double)
    (angle_start angle_end : double) (num_points : Z) :
  1 <= num_points ->
  is_finite angle_start = false \/ is_nan angle_end = true ->
  exists points,
    generate_spiral_cpp cos sin angle_start angle_end num_points = Some points /\
    forall i, (i < Z.to_nat num_points)%nat ->
      mat_get points i 0 = Some nan /\ mat_get points i 1 = Some nan.
Proof.
  intros Hn Hab. eexists. split; [apply generate_spiral_points; lia|].
  intros i Hi.
  destruct (mat_get_points (Some ["x"; "y"]%string)
              (spiral_point cos sin angle_start angle_end num_points
                 <$> seq 0 (Z.to_nat num_points)) i
              (spiral_point cos sin angle_start angle_end num_points i))
    as [Hx Hy].
  { by rewrite list_lookup_fmap, lookup_seq_lt. }
  rewrite Hx, Hy. unfold spiral_point.
  by rewrite (spiral_theta_nonfinite _ _ _ _ Hn Hab).
Qed.

Lemma generate_spiral_nonfinite_witness :
  exists points,
    generate_spiral_cpp abs opp ninf (of_int 4) 3 = Some points /\
    forall i, (i < Z.to_nat 3)%nat ->
      mat_get points i 0 = Some nan /\ mat_get points i 1 = Some nan.
Proof.
  apply (generate_spiral_nonfinite abs opp ninf (of_int 4) 3); [lia|by left].
Defined.

(** X2: the spiral starts at [angle_start]: when [angle_start] is
    finite and not zero and the step is finite, the angle of row 0 is
    [angle_start] itself and the row is its point. *)
Theorem generate_spiral_first_row (cos sin : double -> double)
    (angle_start angle_end : double) (num_points : Z) :
  2 <= num_points ->
  is_finite angle_start = true -> eqb angle_start zero = false ->
  is_finite (div (sub angle_end angle_start) (of_int (num_points - 1))) = true ->
  exists points,
    generate_spiral_cpp cos sin angle_start angle_end num_points = Some points /\
    mat_get points 0 0 = Some (mul (sqrt angle_start) (cos angle_start)) /\
    mat_get points 0 1 = Some (mul (sqrt angle_start) (sin angle_start)).
Proof.
  intros Hn Hfin Hnz Hstep. eexists. split; [apply generate_spiral_points; lia|].
  destruct (mat_get_points (Some ["x"; "y"]%string)
              (spiral_point cos sin angle_start angle_end num_points
                 <$> seq 0 (Z.to_nat num_points)) 0
              (spiral_point cos sin angle_start angle_end num_points 0))
    as [Hx Hy].
  { rewrite list_lookup_fmap, lookup_seq_lt by lia. done. }
  rewrite Hx, Hy. unfold spiral_point.
  assert (spiral_theta angle_start angle_end num_points 0 = angle_start) as ->;
    [|done].
  unfold spiral_theta. cbv zeta. change (of_int (Z.of_nat 0)) with zero.
  destruct (div (sub angle_end angle_start) (of_int (num_points - 1)))
    as [s|s| |s m e]; try done;
    by destruct angle_start as [[]|[]| |sa ma ea].
Qed.

Lemma generate_spiral_first_row_witness :
  exists points,
    generate_spiral_cpp abs opp (of_int 1) (of_int 4) 4 = Some points /\
    mat_get points 0 0 = Some (mul (sqrt (of_int 1)) (abs (of_int 1))) /\
    mat_get points 0 1 = Some (mul (sqrt (of_int 1)) (opp (of_int 1))).
Proof.
  apply (generate_spiral_first_row abs opp (of_int 1) (of_int 4) 4);
    [lia|reflexivity|reflexivity|reflexivity].
Defined.

(** The angle of the last row need not be [angle_end]: from 0 to 1 in
    50 points, 49 steps of 1/49 stop one unit in the last place
    short. *)
Example generate_spiral_last_angle :
  spiral_theta (of_int 0) (of_int 1) 50 49
  = S754_finite false 9007199254740991 (-53) /\
  of_int 1 = S754_finite false 4503599627370496 (-52).
Proof. by vm_compute. Qed.

Lemma spiral_theta_single a b : spiral_theta a b 1 0 = nan.
Proof.
  unfold spiral_theta. cbv zeta.
  change (of_int (1 - 1)) with (of_int 0). change (of_int (Z.of_nat 0)) with (of_int 0).
  by rewrite (mul_zero_not_finite _ (div_by_zero _)), add_nan_r.
Qed.

(** X3: a spiral of no points is the empty matrix labelled "x" and
    "y", and its limits are the default pair (-10.0, 10.0). *)
Theorem spiral_empty_limits (cos sin : double -> double)
    (angle_start angle_end padding : double) :
  exists points,
    generate_spiral_cpp cos sin angle_start angle_end 0 = Some points /\
    nrow points = 0%nat /\ ncol points = 2%nat /\ data points = [] /\
    colnames points = Some ["x"; "y"]%string /\
    calculate_limits_cpp points padding = Some [opp (of_int 10); of_int 10].
Proof.
  eexists. split; [by apply generate_spiral_points|]. done.
Qed.

(** X4: the limits of a generated spiral are always defined: the
    matrix [generate_spiral_cpp] returns has its two columns fully
    stored, and [calculate_limits_cpp] returns a symmetric pair on
    it. *)
Theorem spiral_limits_defined (cos sin : double -> double)
    (angle_start angle_end padding : double) (num_points : Z) :
  0 <= num_points ->
  exists points upper,
    generate_spiral_cpp cos sin angle_start angle_end num_points = Some points /\
    is_points_matrix points /\
    calculate_limits_cpp points padding = Some [opp upper; upper].
Proof.
  intros Hn. rewrite generate_spiral_points by done.
  set (pts := spiral_point cos sin angle_start angle_end num_points
                <$> seq 0 (Z.to_nat num_points)).
  eexists. exists (match pts with
                   | [] => d10_0
                   | _ :: _ => ceil (mul (running_max pts) padding)
                   end).
  split; [done|]. split.
  - unfold is_points_matrix, matrix_of_points. cbn [nrow ncol data].
    rewrite length_app, !length_fmap. split; [done|lia].
  - rewrite calculate_limits_points. by destruct pts.
Qed.

Lemma spiral_limits_defined_witness :
  exists points upper,
    generate_spiral_cpp abs opp (of_int (-4)) (of_int 4) 3 = Some points /\
    is_points_matrix points /\
    calculate_limits_cpp points (of_int 1) = Some [opp upper; upper].
Proof.
  apply (spiral_limits_defined abs opp (of_int (-4)) (of_int 4) (of_int 1) 3).
  lia.
Defined.

(** X5: a spiral of one point is the row (NaN, NaN), which the scan
    skips: its limits come from the scalar 0.0, and are a pair of
    zeros for every finite padding. *)
Theorem spiral_single_limits (cos sin : double -> double)
    (angle_start angle_end padding : double) :
  exists points,
    generate_spiral_cpp cos sin angle_start angle_end 1 = Some points /\
    calculate_limits_cpp points padding
    = Some [opp (ceil (mul zero padding)); ceil (mul zero padding)] /\
    (is_finite padding = true -> abs (ceil (mul zero padding)) = zero).
Proof.
  eexists. split; [by apply generate_spiral_points|].
  change (Z.to_nat 1) with 1%nat. cbn [seq fmap list_fmap].
  unfold spiral_point. rewrite spiral_theta_single. split.
  - by rewrite calculate_limits_points.
  - by destruct padding as [[]|[]| |[] m e].
Qed.

(** ** LimitCalculator: symmetries and edge values *)

Lemma max1_abs acc c d : abs c = abs d -> max1 acc c = max1 acc d.
Proof. intros Habs. unfold max1. by rewrite Habs. Qed.

Lemma leb_max1_trans x acc c :
  nonneg x = true -> nonneg acc = true ->
  leb x acc = true -> leb x (max1 acc c) = true.
Proof.
  intros Hx Hacc Hle.
  apply (leb_trans _ acc); auto using max1_nonneg, max1_ge_acc.
Qed.

(** The order in which two coordinates meet the scalar does not
    matter. *)
Lemma max1_comm acc c d :
  nonneg acc = true -> max1 (max1 acc c) d = max1 (max1 acc d) c.
Proof.
  intros Hacc.
  destruct (is_nan c) eqn:Hc; [by rewrite !(max1_nan _ c Hc)|].
  destruct (is_nan d) eqn:Hd; [by rewrite !(max1_nan _ d Hd)|].
  assert (forall c d, is_nan c = false -> is_nan d = false ->
            leb (max1 (max1 acc c) d) (max1 (max1 acc d) c) = true) as Hle.
  { clear c d Hc Hd. intros c d Hc Hd.
    destruct (max1_cases (max1 acc c) d) as [->|[_ ->]];
      [destruct (max1_cases acc c) as [->|[_ ->]]|].
    - apply leb_max1_trans; auto using max1_nonneg, max1_ge_acc.
    - apply max1_ge_coord; auto using max1_nonneg.
    - apply leb_max1_trans; auto using max1_nonneg, abs_nonneg, max1_ge_coord. }
  apply leb_antisym; auto using max1_nonneg.
Qed.

Lemma max_abs_step_same_box acc p q :
  nonneg acc = true -> same_box p q -> max_abs_step acc p = max_abs_step acc q.
Proof.
  intros Hacc [[H1 H2]|[H1 H2]]; rewrite !max_abs_step_max1.
  - rewrite (max1_abs _ q.2 p.2 H2). f_equal. by apply max1_abs.
  - rewrite (max1_comm acc q.1 q.2 Hacc).
    rewrite (max1_abs _ q.1 p.2 H1). f_equal. by apply max1_abs.
Qed.

Lemma max_abs_step_nonneg acc p :
  nonneg acc = true -> nonneg (max_abs_step acc p) = true.
Proof. intros Hacc. rewrite max_abs_step_max1. auto using max1_nonneg. Qed.

(** X6: the limits do not change when points are reflected in an axis
    or have their x and y swapped, each point on its own: the scan
    keeps one scalar of absolute values for both axes. *)
Theorem calculate_limits_same_box (names names' : option (list string))
    (pts pts' : list Point2D) (padding : double) :
  Forall2 same_box pts pts' ->
  calculate_limits_cpp (matrix_of_points names pts) padding
  = calculate_limits_cpp (matrix_of_points names' pts') padding.
Proof.
  intros Hbox. rewrite !calculate_limits_points.
  assert (running_max pts = running_max pts') as ->.
  { unfold running_max. generalize d0_0 (eq_refl : nonneg d0_0 = true).
    induction Hbox as [|p q pts pts' Hpq _ IH]; intros acc Hacc; [done|].
    cbn [foldl]. rewrite (max_abs_step_same_box acc p q Hacc Hpq).
    apply IH. by apply max_abs_step_nonneg. }
  by destruct Hbox.
Qed.

Lemma calculate_limits_same_box_witness :
  calculate_limits_cpp
    (matrix_of_points None [(of_int 3, of_int 4); (of_int (-5), of_int 1)])
    (of_int 1)
  = calculate_limits_cpp
      (matrix_of_points None [(of_int (-3), of_int 4); (of_int 1, of_int 5)])
      (of_int 1).
Proof.
  apply (calculate_limits_same_box None None
           [(of_int 3, of_int 4); (of_int (-5), of_int 1)]
           [(of_int (-3), of_int 4); (of_int 1, of_int 5)] (of_int 1)).
  constructor; [left; split; reflexivity|].
  constructor; [right; split; reflexivity|].
  constructor.
Defined.

Lemma max1_covered acc c :
  nonneg acc = true ->
  is_nan c = true \/ leb (abs c) acc = true -> max1 acc c = acc.
Proof.
  intros Hacc [Hc|Hle]; [by apply max1_nan|].
  unfold max1. destruct (is_nan c) eqn:Hc.
  - by destruct c.
  - by rewrite (gtb_false_of_leb _ _ (abs_nonneg c Hc) Hacc Hle).
Qed.

Lemma covered_running_max pts c :
  covered pts c -> is_nan c = true \/ leb (abs c) (running_max pts) = true.
Proof.
  intros [Hc|(c' & Hin & Hc' & Hle)]; [by left|].
  destruct (is_nan c) eqn:Hc; [by left|]. right.
  apply (leb_trans _ (abs c')); auto using abs_nonneg, running_max_nonneg.
  rewrite running_max_fold. by apply foldl_max1_upper.
Qed.

(** X7: a point that the others cover does not move the limits: when
    each coordinate of [p] is NaN or at most some coordinate of the
    other points in absolute value, the result with [p], at any row,
    is the result without it. *)
Theorem calculate_limits_covered_point (names names' : option (list string))
    (pts1 pts2 : list Point2D) (p : Point2D) (padding : double) :
  pts1 ++ pts2 <> [] ->
  covered (pts1 ++ pts2) p.1 -> covered (pts1 ++ pts2) p.2 ->
  calculate_limits_cpp (matrix_of_points names (pts1 ++ p :: pts2)) padding
  = calculate_limits_cpp (matrix_of_points names' (pts1 ++ pts2)) padding.
Proof.
  intros Hne Hx Hy. rewrite !calculate_limits_points.
  assert (running_max (pts1 ++ p :: pts2) = running_max (pts1 ++ pts2)) as ->.
  { rewrite (running_max_same_rows (pts1 ++ p :: pts2) ((pts1 ++ pts2) ++ [p])).
    - unfold running_max. rewrite foldl_app. cbn [foldl].
      fold (running_max (pts1 ++ pts2)). rewrite max_abs_step_max1.
      rewrite (max1_covered _ p.1) by
        auto using running_max_nonneg, covered_running_max.
      apply max1_covered; auto using running_max_nonneg, covered_running_max.
    - intros q. rewrite !elem_of_app, !elem_of_cons, elem_of_nil. tauto. }
  destruct pts1 as [|q1 pts1]; [|done]. by destruct pts2.
Qed.

Lemma calculate_limits_covered_point_witness :
  calculate_limits_cpp
    (matrix_of_points None
       [(of_int 3, of_int 4); (of_int 2, nan); (of_int (-5), of_int 1)])
    (of_int 1)
  = calculate_limits_cpp
      (matrix_of_points None [(of_int 3, of_int 4); (of_int (-5), of_int 1)])
      (of_int 1).
Proof.
  apply (calculate_limits_covered_point None None
           [(of_int 3, of_int 4)] [(of_int (-5), of_int 1)]
           (of_int 2, nan) (of_int 1)).
  - discriminate.
  - right. exists (of_int 3). split; [cbn; left|split; reflexivity].
  - left. reflexivity.
Defined.

(** X8: a NaN padding reaches the result: on every non-empty point
    sequence both bounds are NaN, while the empty sequence keeps the
    default pair. *)
Theorem calculate_limits_nan_padding (names : option (list string))
    (pts : list Point2D) (padding : double) :
  is_nan padding = true ->
  calculate_limits_cpp (matrix_of_points names pts) padding
  = Some (match pts with
          | [] => [opp (of_int 10); of_int 10]
          | _ :: _ => [nan; nan]
          end).
Proof.
  intros Hpad. rewrite calculate_limits_points.
  destruct pts as [|p pts]; [done|].
  destruct padding; try done. by destruct (running_max (p :: pts)).
Qed.

Lemma calculate_limits_nan_padding_witness :
  calculate_limits_cpp (matrix_of_points None [(of_int 1, of_int 1)]) nan
  = Some [nan; nan].
Proof.
  apply (calculate_limits_nan_padding None [(of_int 1, of_int 1)] nan).
  reflexivity.
Defined.

Lemma running_max_infinite pts c :
  c ∈ coordinates pts -> abs c = pinf -> running_max pts = pinf.
Proof.
  intros Hin Habs.
  assert (is_nan c = false) as Hc by by destruct c.
  pose proof (foldl_max1_upper (coordinates pts) d0_0 c eq_refl Hin Hc) as Hle.
  rewrite <- running_max_fold, Habs in Hle.
  pose proof (running_max_nonneg pts) as Hnn.
  by destruct (running_max pts) as [[]|[]| |[] m e].
Qed.

(** X9: one infinite coordinate makes the limits infinite: with a
    padding above zero the result is (-inf, +inf). *)
Theorem calculate_limits_infinite (names : option (list string))
    (pts : list Point2D) (c padding : double) :
  c ∈ coordinates pts -> abs c = pinf -> ltb zero padding = true ->
  calculate_limits_cpp (matrix_of_points names pts) padding = Some [ninf; pinf].
Proof.
  intros Hin Habs Hpad. rewrite calculate_limits_points.
  rewrite (running_max_infinite pts c Hin Habs).
  destruct pts as [|p pts]; [by apply elem_of_nil in Hin|].
  by destruct padding as [[]|[]| |[] m e].
Qed.

Lemma calculate_limits_infinite_witness :
  calculate_limits_cpp
    (matrix_of_points None [(of_int 1, ninf); (of_int 2, of_int 3)])
    (div (of_int 11) (of_int 10))
  = Some [ninf; pinf].
Proof.
  apply (calculate_limits_infinite None
           [(of_int 1, ninf); (of_int 2, of_int 3)] ninf
           (div (of_int 11) (of_int 10))).
  - cbn. right. left.
  - reflexivity.
  - reflexivity.
Defined.

Lemma running_max_zero pts :
  (forall c, c ∈ coordinates pts -> is_nan c = true \/ abs c = zero) ->
  running_max pts = zero.
Proof.
  intros Hall. rewrite running_max_fold.
  destruct (foldl_max1_attained (coordinates pts) d0_0)
    as [->|(c & Hin & Hc & ->)]; [done|].
  destruct (Hall c Hin) as [Hnan|Hz]; [congruence|done].
Qed.

(** X10: points that all sit at the origin give limits of no width:
    when every coordinate is a zero or NaN and the padding is finite,
    both bounds of a non-empty sequence are zeros. *)
Theorem calculate_limits_origin (names : option (list string))
    (pts : list Point2D) (padding : double) :
  pts <> [] ->
  (forall c, c ∈ coordinates pts -> is_nan c = true \/ abs c = zero) ->
  is_finite padding = true ->
  exists s,
    calculate_limits_cpp (matrix_of_points names pts) padding
    = Some [S754_zero (negb s); S754_zero s].
Proof.
  intros Hne Hall Hpad. rewrite calculate_limits_running_max by done.
  rewrite (running_max_zero pts Hall).
  destruct padding as [s|s| |s m e]; try done; exists s; by destruct s.
Qed.

Lemma calculate_limits_origin_witness :
  exists s,
    calculate_limits_cpp
      (matrix_of_points None [(zero, S754_zero true); (nan, zero)])
      (div (of_int 11) (of_int 10))
    = Some [S754_zero (negb s); S754_zero s].
Proof.
  apply (calculate_limits_origin None [(zero, S754_zero true); (nan, zero)]
           (div (of_int 11) (of_int 10))).
  - discriminate.
  - intros c Hc. cbn in Hc.
    repeat (apply elem_of_cons in Hc as [->|Hc]; [auto|]).
    by apply elem_of_nil in Hc.
  - reflexivity.
Defined.

(** ** LimitCalculator: the shape of the matrix *)

Lemma limits_body_first_two_columns m j t :
  (j < nrow m)%nat ->
  limits_body m j t = limits_body (first_two_columns m) j t.
Proof.
  intros Hj. unfold limits_body, mat_get, offset, first_two_columns.
  cbn [nrow data]. by rewrite !lookup_take_lt by lia.
Qed.

Lemma calculate_limits_take_columns m padding :
  (nrow m * 2 <= length (data m))%nat ->
  calculate_limits_cpp m padding
  = calculate_limits_cpp (first_two_columns m) padding.
Proof.
  intros Hlen. unfold calculate_limits_cpp.
  change (nrow (first_two_columns m)) with (nrow m).
  destruct (nrow m =? 0)%nat; [done|].
  rewrite (for_loop_ext (limits_body m) (limits_body (first_two_columns m)));
    [done|].
  intros j t Hj. apply limits_body_first_two_columns. lia.
Qed.

(** X11: only the first two columns are read: on a matrix that stores
    at least two full columns the limits are those of its first two
    columns, whatever stands in the others and in the column names. *)
Theorem calculate_limits_first_two_columns (m : NumericMatrix) (padding : double) :
  (nrow m * 2 <= length (data m))%nat ->
  exists lower upper,
    calculate_limits_cpp m padding = Some [lower; upper] /\
    calculate_limits_cpp (first_two_columns m) padding = Some [lower; upper] /\
    forall names,
      calculate_limits_cpp
        (mkMatrix (nrow m) 2 (take (nrow m * 2) (data m)) names) padding
      = Some [lower; upper].
Proof.
  intros Hlen. rewrite calculate_limits_take_columns by done.
  destruct (points_matrix_rows (first_two_columns m)) as (pts & Hm & Hn).
  { unfold is_points_matrix, first_two_columns. cbn [ncol nrow data].
    rewrite length_take. split; [done|lia]. }
  assert (forall names,
            mkMatrix (nrow m) 2 (take (nrow m * 2) (data m)) names
            = matrix_of_points names pts) as Hnames.
  { intros names. unfold matrix_of_points, first_two_columns in *.
    injection Hm as Hr Hd. cbn [nrow] in Hn. by rewrite Hn, <- Hd. }
  unfold first_two_columns. setoid_rewrite Hnames.
  setoid_rewrite calculate_limits_points. destruct pts; eauto.
Qed.

(** Three columns x, y, z of two rows: z is not looked at. *)
Lemma calculate_limits_first_two_columns_witness :
  exists lower upper,
    calculate_limits_cpp
      (mkMatrix 2 3
         [of_int 3; of_int (-5); of_int 4; of_int 1; of_int 70; of_int 80] None)
      (of_int 1)
    = Some [lower; upper] /\
    calculate_limits_cpp
      (first_two_columns
         (mkMatrix 2 3
            [of_int 3; of_int (-5); of_int 4; of_int 1; of_int 70; of_int 80]
            None))
      (of_int 1)
    = Some [lower; upper] /\
    forall names,
      calculate_limits_cpp
        (mkMatrix 2 2
           (take (2 * 2)
              [of_int 3; of_int (-5); of_int 4; of_int 1; of_int 70; of_int 80])
           names)
        (of_int 1)
      = Some [lower; upper].
Proof.
  apply (calculate_limits_first_two_columns
           (mkMatrix 2 3
              [of_int 3; of_int (-5); of_int 4; of_int 1; of_int 70; of_int 80]
              None) (of_int 1)).
  simpl. lia.
Defined.

Example calculate_limits_three_columns :
  calculate_limits_cpp
    (mkMatrix 2 3
       [of_int 3; of_int (-5); of_int 4; of_int 1; of_int 70; of_int 80] None)
    (of_int 1)
  = Some [of_int (-5); of_int 5].
Proof. by vm_compute. Qed.

Lemma first_two_columns_points m :
  (nrow m * 2 <= length (data m))%nat -> is_points_matrix (first_two_columns m).
Proof.
  intros Hlen. unfold is_points_matrix, first_two_columns. cbn [ncol nrow data].
  rewrite length_take. split; [done|lia].
Qed.

(** X12: the call has a defined result exactly on a matrix without
    rows or with two full columns stored: with rows and less than two
    columns of cells, the scan reads past the storage. *)
Theorem calculate_limits_defined_iff (m : NumericMatrix) (padding : double) :
  is_Some (calculate_limits_cpp m padding)
  <-> nrow m = 0%nat \/ (nrow m * 2 <= length (data m))%nat.
Proof.
  split.
  - intros Hsome.
    destruct (decide (nrow m = 0%nat)) as [|Hrows]; [by left|]. right.
    destruct (decide (nrow m * 2 <= length (data m))%nat) as [|Hshort]; [done|].
    exfalso. unfold calculate_limits_cpp in Hsome.
    replace (nrow m =? 0)%nat with false in Hsome
      by (symmetry; by apply Nat.eqb_neq).
    rewrite (for_loop_fail (limits_body m) (nrow m) 0%nat d0_0 (nrow m - 1)%nat)
      in Hsome; [by destruct Hsome|lia|].
    intros t. unfold limits_body.
    destruct (mat_get m (nrow m - 1) 0) as [x|]; [|done].
    cbn [mbind option_bind]. unfold mat_get, offset.
    by rewrite lookup_ge_None_2 by lia.
  - intros [Hrows|Hlen].
    + unfold calculate_limits_cpp. by rewrite Hrows.
    + rewrite calculate_limits_take_columns by done.
      destruct (calculate_limits_total (first_two_columns m) padding
                  (first_two_columns_points m Hlen)) as (lower & upper & ->).
      done.
Qed.




(** The two sides of X13 on runs: in order for the padding 1.1, both
    NaN for the origin with the padding +inf. *)
Example limits_order_runs :
  calculate_limits_cpp
    (matrix_of_points None [(of_int 3, of_int 4); (of_int (-5), of_int 1)])
    (div (of_int 11) (of_int 10))
  = Some [of_int (-6); of_int 6] /\
  calculate_limits_cpp (matrix_of_points None [(zero, zero)]) pinf
  = Some [nan; nan].
Proof. by vm_compute. Qed.

(** ** BoundedCellCounter: range, composition and order *)

(** The result on every vector, short or long. *)
Lemma count_bounded_cases (has_infinite : LogicalVector) :
  count_bounded_cells_cpp has_infinite
  = if decide (Z.of_nat (length has_infinite) <= INT_MAX)
    then Some (count_false has_infinite) else None.
Proof.
  unfold count_bounded_cells_cpp. case_decide.
  - by rewrite count_loop_spec by lia.
  - apply count_loop_overflow; [done|lia].
Qed.

Lemma count_false_app v1 v2 :
  count_false (v1 ++ v2) = count_false v1 + count_false v2.
Proof. unfold count_false. rewrite filter_app, length_app. lia. Qed.

Lemma count_false_all v :
  count_false v = Z.of_nat (length v) <-> (forall b, b ∈ v -> b = FALSE).
Proof.
  induction v as [|b v IH].
  - split; [intros _ b Hb; by apply elem_of_nil in Hb|done].
  - rewrite count_false_cons. cbn [length].
    pose proof (count_false_bounds v) as Hb. split.
    + intros Heq c Hc. destruct b; cbn [logical_not] in Heq; try lia.
      apply elem_of_cons in Hc as [->|Hc]; [done|]. apply IH; [lia|done].
    + intros Hall. rewrite (Hall b) by left. cbn [logical_not].
      assert (count_false v = Z.of_nat (length v)) as ->; [|lia].
      apply IH. intros c Hc. apply Hall. by right.
Qed.

Lemma count_false_none v : count_false v = 0 <-> FALSE ∉ v.
Proof.
  induction v as [|b v IH].
  - split; [intros _ Hb; by apply elem_of_nil in Hb|done].
  - rewrite count_false_cons, not_elem_of_cons.
    pose proof (count_false_bounds v) as Hb.
    destruct b; cbn [logical_not]; split; try (intros [? ?]); try lia;
      try tauto; intros; (split; [done|]); apply IH; lia.
Qed.

(** X14: counting composes over concatenation: while the whole vector
    has at most [INT_MAX] entries, the count of [v1 ++ v2] is the sum
    of the counts of [v1] and of [v2]. *)
Theorem count_bounded_app (v1 v2 : LogicalVector) :
  Z.of_nat (length (v1 ++ v2)) <= INT_MAX ->
  exists c1 c2,
    count_bounded_cells_cpp v1 = Some c1 /\
    count_bounded_cells_cpp v2 = Some c2 /\
    count_bounded_cells_cpp (v1 ++ v2) = Some (c1 + c2).
Proof.
  intros Hlen. rewrite length_app in Hlen.
  exists (count_false v1), (count_false v2).
  rewrite !count_bounded_cases, length_app, count_false_app.
  by rewrite !decide_True by lia.
Qed.

Lemma count_bounded_app_witness :
  exists c1 c2,
    count_bounded_cells_cpp [FALSE; TRUE] = Some c1 /\
    count_bounded_cells_cpp [NA; FALSE; FALSE] = Some c2 /\
    count_bounded_cells_cpp ([FALSE; TRUE] ++ [NA; FALSE; FALSE]) = Some (c1 + c2).
Proof.
  apply (count_bounded_app [FALSE; TRUE] [NA; FALSE; FALSE]).
  vm_compute. discriminate.
Defined.

(** X15: the count lies between 0 and the number of cells; it is the
    number of cells exactly when every flag is FALSE, and 0 exactly
    when no flag is FALSE (TRUE and NA alike are not counted). *)
Theorem count_bounded_range (has_infinite : LogicalVector) :
  Z.of_nat (length has_infinite) <= INT_MAX ->
  exists count,
    count_bounded_cells_cpp has_infinite = Some count /\
    0 <= count <= Z.of_nat (length has_infinite) /\
    (count = Z.of_nat (length has_infinite)
     <-> forall b, b ∈ has_infinite -> b = FALSE) /\
    (count = 0 <-> FALSE ∉ has_infinite).
Proof.
  intros Hlen. exists (count_false has_infinite).
  rewrite count_bounded_cases, decide_True by done.
  auto using count_false_bounds, count_false_all, count_false_none.
Qed.

Lemma count_bounded_range_witness :
  exists count,
    count_bounded_cells_cpp [FALSE; NA; TRUE] = Some count /\
    0 <= count <= Z.of_nat (length [FALSE; NA; TRUE]) /\
    (count = Z.of_nat (length [FALSE; NA; TRUE])
     <-> forall b, b ∈ [FALSE; NA; TRUE] -> b = FALSE) /\
    (count = 0 <-> FALSE ∉ [FALSE; NA; TRUE]).
Proof.
  apply (count_bounded_range [FALSE; NA; TRUE]). vm_compute. discriminate.
Defined.

(** X16: the count does not depend on the order of the cells. *)
Theorem count_bounded_permutation (v v' : LogicalVector) :
  v ≡ₚ v' -> count_bounded_cells_cpp v = count_bounded_cells_cpp v'.
Proof.
  intros Hperm. rewrite !count_bounded_cases.
  assert (count_false v = count_false v') as ->.
  { unfold count_false. by rewrite Hperm. }
  by rewrite (Permutation_length Hperm).
Qed.

Lemma count_bounded_permutation_witness :
  count_bounded_cells_cpp [FALSE; TRUE; NA]
  = count_bounded_cells_cpp [TRUE; FALSE; NA].
Proof.
  apply (count_bounded_permutation [FALSE; TRUE; NA] [TRUE; FALSE; NA]).
  apply perm_swap.
Defined.

(** X17: the call has a defined result exactly on vectors of at most
    [INT_MAX] cells; on a longer one the [int] index overflows before
    the loop ends. *)
Theorem count_bounded_defined_iff (has_infinite : LogicalVector) :
  is_Some (count_bounded_cells_cpp has_infinite)
  <-> Z.of_nat (length has_infinite) <= INT_MAX.
Proof.
  rewrite count_bounded_cases. case_decide; split; try done.
Qed.

(** ** Rounding, by value *)

Lemma Zdigits2_bounds z :
  0 < z -> 2 ^ (Zdigits2 z - 1) <= z < 2 ^ Zdigits2 z.
Proof. destruct z as [|p|p]; try lia. intros _. apply digits2_pos_bounds. Qed.

Lemma Zdigits2_unique z d :
  2 ^ (d - 1) <= z < 2 ^ d -> 0 < z -> Zdigits2 z = d.
Proof.
  destruct z as [|p|p]; try lia. intros Hb _. symmetry.
  by apply digits2_pos_unique.
Qed.

Lemma shr_1_div2 mrs : 0 <= shr_m mrs -> shr_m (shr_1 mrs) = shr_m mrs / 2.
Proof.
  destruct mrs as [m r s]. cbn [shr_m]. intros Hm.
  destruct m as [|[p|p|]|p]; cbn [shr_1 shr_m]; try lia; try done.
  - rewrite Pos2Z.inj_xI. apply (Z.div_unique _ _ _ 1); lia.
  - rewrite Pos2Z.inj_xO. apply (Z.div_unique _ _ _ 0); lia.
Qed.

Lemma iter_shr_1_div p : forall mrs,
  0 <= shr_m mrs ->
  shr_m (SpecFloat.iter_pos shr_1 p mrs) = shr_m mrs / 2 ^ Z.pos p.
Proof.
  assert (forall q, 0 < 2 ^ Z.pos q) as Hpow
    by (intros q; apply Z.pow_pos_nonneg; lia).
  induction p as [p IH|p IH|]; intros mrs Hm; cbn [SpecFloat.iter_pos].
  - pose proof (Hpow p).
    assert (0 <= shr_m (shr_1 mrs)) as H1
      by (rewrite shr_1_div2 by done; apply Z.div_pos; lia).
    assert (0 <= shr_m (SpecFloat.iter_pos shr_1 p (shr_1 mrs))) as H2
      by (rewrite IH by done; apply Z.div_pos; lia).
    rewrite IH, IH, shr_1_div2 by done.
    rewrite (Z.div_div (shr_m mrs) 2 (2 ^ Z.pos p)) by lia.
    rewrite (Z.div_div (shr_m mrs) (2 * 2 ^ Z.pos p) (2 ^ Z.pos p)) by lia.
    f_equal.
    replace (Z.pos p~1) with (1 + Z.pos p + Z.pos p) by lia.
    by rewrite !Z.pow_add_r, Z.pow_1_r by lia.
  - pose proof (Hpow p).
    assert (0 <= shr_m (SpecFloat.iter_pos shr_1 p mrs)) as H2
      by (rewrite IH by done; apply Z.div_pos; lia).
    rewrite IH, IH by done.
    rewrite (Z.div_div (shr_m mrs) (2 ^ Z.pos p) (2 ^ Z.pos p)) by lia.
    f_equal.
    replace (Z.pos p~0) with (Z.pos p + Z.pos p) by lia.
    by rewrite Z.pow_add_r by lia.
  - by rewrite shr_1_div2.
Qed.

(** The shift to the target exponent divides the mantissa. *)
Lemma shr_fexp_value m e l :
  0 <= m ->
  shr_m (shr_fexp prec emax m e l).1
  = m / 2 ^ Z.max 0 (fexp prec emax (Zdigits2 m + e) - e) /\
  (shr_fexp prec emax m e l).2
  = e + Z.max 0 (fexp prec emax (Zdigits2 m + e) - e).
Proof.
  intros Hm. unfold shr_fexp, shr.
  assert (shr_m (shr_record_of_loc m l) = m) as Hrec by by destruct l as [|[]].
  destruct (fexp prec emax (Zdigits2 m + e) - e) as [|k|k]; cbn [fst snd].
  - rewrite Hrec. cbn [Z.max Z.compare]. rewrite Z.pow_0_r, Z.div_1_r. lia.
  - rewrite iter_shr_1_div by lia. rewrite Hrec.
    replace (Z.max 0 (Z.pos k)) with (Z.pos k) by lia. done.
  - rewrite Hrec. replace (Z.max 0 (Z.neg k)) with 0 by lia.
    rewrite Z.pow_0_r, Z.div_1_r. lia.
Qed.

Lemma Zdigits2_div z k :
  0 < z -> 0 <= k < Zdigits2 z -> Zdigits2 (z / 2 ^ k) = Zdigits2 z - k.
Proof.
  intros Hz Hk. pose proof (Zdigits2_bounds z Hz) as [Hlo Hhi].
  assert (0 < 2 ^ k) as Hpow by (apply Z.pow_pos_nonneg; lia).
  assert (2 ^ (Zdigits2 z - k - 1) <= z / 2 ^ k) as Hq.
  { apply Z.div_le_lower_bound; [done|].
    rewrite <- Z.pow_add_r by lia.
    by replace (k + (Zdigits2 z - k - 1)) with (Zdigits2 z - 1) by lia. }
  assert (z / 2 ^ k < 2 ^ (Zdigits2 z - k)) as Hq'.
  { apply Z.div_lt_upper_bound; [done|].
    rewrite <- Z.pow_add_r by lia.
    by replace (k + (Zdigits2 z - k)) with (Zdigits2 z) by lia. }
  assert (0 < 2 ^ (Zdigits2 z - k - 1)) by (apply Z.pow_pos_nonneg; lia).
  apply Zdigits2_unique; [split; [done|done]|lia].
Qed.

Lemma Zdigits2_succ z :
  0 < z -> Zdigits2 z <= Zdigits2 (z + 1) <= Zdigits2 z + 1.
Proof.
  intros Hz. pose proof (Zdigits2_bounds z Hz) as [Hlo Hhi].
  assert (0 < Zdigits2 z) by (destruct z; simpl; lia).
  destruct (decide (z + 1 < 2 ^ Zdigits2 z)) as [Hlt|Hge].
  - rewrite (Zdigits2_unique (z + 1) (Zdigits2 z)); lia.
  - rewrite (Zdigits2_unique (z + 1) (Zdigits2 z + 1)); try lia.
    replace (Zdigits2 z + 1 - 1) with (Zdigits2 z) by lia.
    rewrite Z.pow_add_r, Z.pow_1_r by lia. lia.
Qed.

Lemma round_nearest_even_le m l : round_nearest_even m l <= m + 1.
Proof.
  unfold round_nearest_even.
  destruct l as [|[]]; try lia. destruct (Z.even m); lia.
Qed.

(** What rounding returns on a mantissa with enough digits: an
    infinity, or a double whose exponent is the target exponent or the
    next, and whose mantissa is not below the truncated one. *)
Lemma binary_round_aux_spec s mx ex lx :
  0 < mx ->
  ex <= fexp prec emax (Zdigits2 mx + ex) ->
  2 ^ (fexp prec emax (Zdigits2 mx + ex) - ex) <= mx ->
  binary_round_aux prec emax s mx ex lx = S754_infinity s \/
  exists m2 e2,
    binary_round_aux prec emax s mx ex lx = S754_finite s m2 e2 /\
    valid (S754_finite s m2 e2) = true /\
    fexp prec emax (Zdigits2 mx + ex) <= e2 /\
    (e2 = fexp prec emax (Zdigits2 mx + ex) ->
     mx / 2 ^ (fexp prec emax (Zdigits2 mx + ex) - ex) <= Z.pos m2).
Proof.
  intros Hmx Hk1 Hbig. unfold binary_round_aux.
  set (e1 := fexp prec emax (Zdigits2 mx + ex)) in *.
  destruct (shr_fexp_value mx ex lx ltac:(lia)) as [Hv1 He1].
  fold e1 in Hv1, He1. replace (Z.max 0 (e1 - ex)) with (e1 - ex) in * by lia.
  destruct (shr_fexp prec emax mx ex lx) as [mrs' e']. cbn [fst snd] in *.
  replace (ex + (e1 - ex)) with e1 in He1 by lia. subst e'.
  pose proof (Zdigits2_bounds mx Hmx) as [Hlo Hhi].
  assert (0 < 2 ^ (e1 - ex)) as Hpow by (apply Z.pow_pos_nonneg; lia).
  assert (e1 - ex < Zdigits2 mx) as Hkd.
  { apply (Z.pow_lt_mono_r_iff 2); [lia| |lia].
    destruct mx; simpl; lia. }
  set (m1 := shr_m mrs') in *.
  assert (1 <= m1) as Hm1.
  { rewrite Hv1. apply Z.div_le_lower_bound; lia. }
  assert (Zdigits2 m1 = Zdigits2 mx - (e1 - ex)) as Hd1.
  { rewrite Hv1. apply Zdigits2_div; lia. }
  set (r := round_nearest_even m1 (loc_of_shr_record mrs')).
  pose proof (round_nearest_even_ge m1 (loc_of_shr_record mrs')) as Hr1.
  pose proof (round_nearest_even_le m1 (loc_of_shr_record mrs')) as Hr2.
  fold r in Hr1, Hr2.
  assert (Zdigits2 m1 <= Zdigits2 r <= Zdigits2 m1 + 1) as Hdr.
  { destruct (decide (r = m1)) as [->|Hne]; [lia|].
    replace r with (m1 + 1) by lia. apply Zdigits2_succ. lia. }
  destruct (shr_fexp_value r e1 loc_Exact ltac:(lia)) as [Hv2 He2].
  destruct (shr_fexp prec emax r e1 loc_Exact) as [mrs'' e''].
  cbn [fst snd] in *.
  assert (fexp prec emax (Zdigits2 m1 + e1) = e1) as Hcan1.
  { rewrite Hd1. by replace (Zdigits2 mx - (e1 - ex) + e1) with (Zdigits2 mx + ex)
      by lia. }
  set (k2 := fexp prec emax (Zdigits2 r + e1) - e1) in *.
  assert (k2 = 0 \/ (k2 = 1 /\ Zdigits2 r = Zdigits2 m1 + 1)) as Hk2.
  { unfold k2. unfold fexp, SpecFloat.emin, prec, emax in *. lia. }
  assert (1 <= shr_m mrs'' /\
          fexp prec emax (Zdigits2 (shr_m mrs'') + e'') = e'' /\
          (e'' = e1 -> m1 <= shr_m mrs'')) as (Hm2 & Hcan2 & Hge).
  { destruct Hk2 as [Hz|[Ho Hdig]].
    - rewrite Hz in Hv2, He2. change (Z.max 0 0) with 0 in Hv2, He2.
      rewrite Z.pow_0_r, Z.div_1_r in Hv2. rewrite Hv2.
      replace e'' with e1 by lia. split; [lia|]. split; [|lia].
      unfold k2 in Hz. lia.
    - rewrite Ho in Hv2, He2. change (Z.max 0 1) with 1 in Hv2, He2.
      assert (0 < Zdigits2 m1) by (destruct m1; simpl; lia).
      assert (Zdigits2 (shr_m mrs'') = Zdigits2 r - 1) as Hd2.
      { rewrite Hv2. apply Zdigits2_div; lia. }
      split; [|split; [|lia]].
      + rewrite Hv2. apply Z.div_le_lower_bound; [lia|].
        pose proof (Zdigits2_bounds r ltac:(lia)) as [Hrlo _].
        transitivity (2 ^ (Zdigits2 r - 1)); [|done].
        rewrite Hdig. replace (Zdigits2 m1 + 1 - 1) with (Zdigits2 m1) by lia.
        change (2 ^ 1 * 1) with (2 ^ 1). apply Z.pow_le_mono_r; lia.
      + rewrite Hd2, He2.
        replace (Zdigits2 r - 1 + (e1 + 1)) with (Zdigits2 r + e1) by lia.
        unfold k2 in Ho. lia. }
  destruct (shr_m mrs'') as [|m2|m2] eqn:Hm2eq; try lia.
  destruct (e'' <=? emax - prec) eqn:Hov; [|by left].
  right. exists m2, e''. split; [done|]. split; [|split].
  - unfold valid, valid_binary, bounded, canonical_mantissa.
    cbn [Zdigits2] in Hcan2. rewrite Hcan2, Z.eqb_refl. done.
  - lia.
  - intros He. rewrite <- Hv1. by apply Hge.
Qed.

Lemma leb_fin_fin m1 e1 m2 e2 :
  e1 < e2 \/ (e1 = e2 /\ Z.pos m1 <= Z.pos m2) ->
  leb (S754_finite false m1 e1) (S754_finite false m2 e2) = true.
Proof.
  intros Hle. unfold leb, SFleb. rewrite compare_fin_fin.
  destruct (Z.compare_spec e1 e2); try lia; try done.
  destruct (Pos.compare_spec m1 m2); try lia; done.
Qed.

Lemma valid_canonical s m e :
  valid (S754_finite s m e) = true ->
  fexp prec emax (Z.pos (digits2_pos m) + e) = e.
Proof.
  unfold valid, valid_binary, bounded, canonical_mantissa.
  intros [Hc _]%andb_prop. by apply Z.eqb_eq in Hc.
Qed.

(** A double that is at least 1.0 is normal, with exponent at least
    -52. *)
Lemma ge_one_normal mp ep :
  valid (S754_finite false mp ep) = true ->
  leb (of_int 1) (S754_finite false mp ep) = true ->
  Z.pos (digits2_pos mp) = 53 /\ -52 <= ep.
Proof.
  intros Hcan%valid_canonical Hle.
  change (of_int 1) with (S754_finite false 4503599627370496 (-52)) in Hle.
  unfold leb, SFleb in Hle. rewrite compare_fin_fin in Hle.
  assert (-52 <= ep) by (destruct (Z.compare_spec (-52) ep); try lia; done).
  unfold fexp, SpecFloat.emin, prec, emax in Hcan. lia.
Qed.

(** Multiplying by a padding of at least 1.0 does not go below the
    value multiplied. *)
Lemma mul_ge_self mM eM mp ep :
  valid (S754_finite false mM eM) = true ->
  valid (S754_finite false mp ep) = true ->
  leb (of_int 1) (S754_finite false mp ep) = true ->
  let x := mul (S754_finite false mM eM) (S754_finite false mp ep) in
  leb (S754_finite false mM eM) x = true /\ valid x = true /\ nonneg x = true.
Proof.
  intros HvM Hvp Hone x.
  pose proof (valid_canonical _ _ _ HvM) as HcM.
  destruct (ge_one_normal mp ep Hvp Hone) as [Hdp Hep].
  pose proof (digits2_pos_bounds mM) as [HMlo HMhi].
  pose proof (digits2_pos_bounds mp) as [Hplo Hphi].
  rewrite Hdp in Hplo, Hphi. change (53 - 1) with 52 in Hplo.
  set (dM := Z.pos (digits2_pos mM)) in *.
  set (mx := Z.pos (mM * mp)).
  assert (mx = Z.pos mM * Z.pos mp) as Hmx by done.
  assert (0 < 2 ^ (dM - 1)) by (apply Z.pow_pos_nonneg; lia).
  assert (0 < 2 ^ 52) by done.
  pose proof (Zdigits2_bounds mx ltac:(done)) as [Hxlo Hxhi].
  assert (dM + 52 <= Zdigits2 mx) as Hd.
  { assert (dM - 1 + 52 < Zdigits2 mx); [|lia].
    apply (Z.pow_lt_mono_r_iff 2); [lia|unfold mx; simpl; lia|].
    rewrite Z.pow_add_r by lia. nia. }
  set (e1 := fexp prec emax (Zdigits2 mx + (eM + ep))).
  assert (eM + ep <= e1 /\ eM <= e1 /\
          (e1 - (eM + ep) = Zdigits2 mx - 53 \/ e1 - (eM + ep) <= 52)) as (Hk1 & HeM & Hk).
  { unfold e1. unfold fexp, SpecFloat.emin, prec, emax in *. lia. }
  assert (2 ^ (e1 - (eM + ep)) <= mx) as Hbig.
  { destruct Hk as [->|Hk].
    - transitivity (2 ^ (Zdigits2 mx - 1)); [|done].
      apply Z.pow_le_mono_r; lia.
    - transitivity (2 ^ 52); [apply Z.pow_le_mono_r; lia|]. nia. }
  destruct (binary_round_aux_spec false mx (eM + ep) loc_Exact
              ltac:(done) Hk1 Hbig) as [Hinf|(m2 & e2 & Hfin & Hv2 & He2 & Hm2)];
    unfold x, mul, SFmul; cbn [xorb]; fold mx.
  - by rewrite Hinf.
  - fold e1 in He2, Hm2. rewrite Hfin. split; [|done]. apply leb_fin_fin.
    destruct (decide (eM < e2)) as [|Hnlt]; [by left|]. right.
    assert (e2 = e1) as He by lia. split; [lia|].
    etransitivity; [|apply Hm2, He].
    assert (0 < 2 ^ (e1 - (eM + ep))) by (apply Z.pow_pos_nonneg; lia).
    apply Z.div_le_lower_bound; [done|].
    assert (2 ^ (e1 - (eM + ep)) <= Z.pos mp); [|nia].
    transitivity (2 ^ 52); [|done]. apply Z.pow_le_mono_r; lia.
Qed.

Lemma Zdigits2_shift z k :
  0 < z -> 0 <= k -> Zdigits2 (z * 2 ^ k) = Zdigits2 z + k.
Proof.
  intros Hz Hk. pose proof (Zdigits2_bounds z Hz) as [Hlo Hhi].
  assert (0 < 2 ^ k) by (apply Z.pow_pos_nonneg; lia).
  assert (0 < Zdigits2 z) by (destruct z; simpl; lia).
  apply Zdigits2_unique; [|nia].
  replace (Zdigits2 z + k - 1) with (Zdigits2 z - 1 + k) by lia.
  rewrite !Z.pow_add_r by lia. nia.
Qed.

(** [ceil] does not go below its argument. *)
Lemma ceil_ge x : valid x = true -> nonneg x = true -> leb x (ceil x) = true.
Proof.
  intros Hv Hnn. destruct x as [[]|[]| |[] m e]; try done.
  unfold ceil. destruct (0 <=? e) eqn:He; [by apply leb_refl|].
  apply Z.leb_gt in He. change (cond_Zopp false (Z.pos m)) with (Z.pos m).
  pose proof (valid_canonical _ _ _ Hv) as Hcan.
  pose proof (digits2_pos_bounds m) as [Hmlo Hmhi].
  set (dm := Z.pos (digits2_pos m)) in *.
  assert (0 < 2 ^ (- e)) as Hpow by (apply Z.pow_pos_nonneg; lia).
  set (z := - (Z.div (- Z.pos m) (2 ^ (- e)))).
  assert (Z.pos m <= z * 2 ^ (- e) /\ 1 <= z) as [Hzm Hz1].
  { pose proof (Z.div_mod (- Z.pos m) (2 ^ (- e)) ltac:(lia)) as Hdm.
    pose proof (Z.mod_pos_bound (- Z.pos m) (2 ^ (- e)) Hpow) as Hr.
    unfold z. split; [nia|].
    assert (Z.div (- Z.pos m) (2 ^ (- e)) < 0); [|lia].
    apply Z.div_lt_upper_bound; lia. }
  destruct z as [|pz|pz] eqn:Hz; try lia. cbn [Z.eqb binary_normalize].
  pose proof (Zdigits2_bounds (Z.pos pz) ltac:(done)) as [Hzlo Hzhi].
  cbn [Zdigits2] in Hzlo, Hzhi. set (dz := Z.pos (digits2_pos pz)) in *.
  set (t := fexp prec emax (dz + 0)).
  (* the target exponent is not below the exponent of the argument *)
  assert (e <= t) as Het.
  { unfold t. unfold fexp, SpecFloat.emin, prec, emax in *.
    destruct (decide (e = -1074)) as [|Hne]; [lia|].
    assert (dm = 53) as Hdm by lia.
    assert (dm - 1 + e < dz); [|lia].
    destruct (decide (0 <= dm - 1 + e)) as [Hpos|]; [|lia].
    apply (Z.pow_lt_mono_r_iff 2); [lia|lia|].
    assert (2 ^ (dm - 1 + e) * 2 ^ (- e) = 2 ^ (dm - 1)) as Hsplit.
    { rewrite <- Z.pow_add_r by lia. f_equal. lia. }
    nia. }
  unfold binary_round. fold dz. fold t.
  unfold shl_align.
  assert (t <= dz - 1) as Htd
    by (unfold t; unfold fexp, SpecFloat.emin, prec, emax; lia).
  destruct (t - 0) as [|d|d] eqn:Ht.
  - (* no shift: the integer is a mantissa as it is *)
    assert (0 <= fexp prec emax (Zdigits2 (Z.pos pz) + 0)) as Hp1
      by (cbn [Zdigits2]; fold dz; fold t; lia).
    assert (2 ^ (fexp prec emax (Zdigits2 (Z.pos pz) + 0) - 0) <= Z.pos pz)
      as Hp2.
    { cbn [Zdigits2]. fold dz. fold t. rewrite Ht. simpl. lia. }
    destruct (binary_round_aux_spec false (Z.pos pz) 0 loc_Exact
                ltac:(done) Hp1 Hp2) as [Hinf|(m2 & e2 & Hfin & _ & He2 & _)].
    + by rewrite Hinf.
    + rewrite Hfin. apply leb_fin_fin. left.
      cbn [Zdigits2] in He2. fold dz in He2. fold t in He2. lia.
  - assert (0 <= fexp prec emax (Zdigits2 (Z.pos pz) + 0)) as Hp1
      by (cbn [Zdigits2]; fold dz; fold t; lia).
    assert (2 ^ (fexp prec emax (Zdigits2 (Z.pos pz) + 0) - 0) <= Z.pos pz)
      as Hp2.
    { cbn [Zdigits2]. fold dz. fold t.
      transitivity (2 ^ (dz - 1)); [|done]. apply Z.pow_le_mono_r; lia. }
    destruct (binary_round_aux_spec false (Z.pos pz) 0 loc_Exact
                ltac:(done) Hp1 Hp2) as [Hinf|(m2 & e2 & Hfin & _ & He2 & _)].
    + by rewrite Hinf.
    + rewrite Hfin. apply leb_fin_fin. left.
      cbn [Zdigits2] in He2. fold dz in He2. fold t in He2. lia.
  - (* the integer is shifted left to the target exponent *)
    assert (t = Z.neg d) as Htn by lia.
    pose proof (pos_iter_xO pz d) as Hshift.
    set (mz := Pos.iter xO pz d) in *.
    assert (Zdigits2 (Z.pos mz) + t = dz + 0) as Hdz.
    { rewrite Hshift, Zdigits2_shift by lia. cbn [Zdigits2]. fold dz. lia. }
    assert (fexp prec emax (Zdigits2 (Z.pos mz) + t) = t) as Hcz
      by by rewrite Hdz.
    assert (t <= fexp prec emax (Zdigits2 (Z.pos mz) + t)) as Hp1 by lia.
    assert (2 ^ (fexp prec emax (Zdigits2 (Z.pos mz) + t) - t) <= Z.pos mz)
      as Hp2 by (rewrite Hcz, Z.sub_diag; simpl; lia).
    destruct (binary_round_aux_spec false (Z.pos mz) t loc_Exact
                ltac:(done) Hp1 Hp2) as [Hinf|(m2 & e2 & Hfin & _ & He2 & Hm2)].
    + by rewrite Hinf.
    + rewrite Hfin. rewrite Hcz in He2, Hm2. apply leb_fin_fin.
      destruct (decide (e < e2)) as [|Hnlt]; [by left|]. right.
      assert (e2 = t) as He2t by lia. split; [lia|].
      specialize (Hm2 He2t). rewrite Z.sub_diag, Z.pow_0_r, Z.div_1_r in Hm2.
      etransitivity; [|exact Hm2]. rewrite Hshift.
      replace (Z.pos d) with (- e) by lia. done.
Qed.

Lemma signed_false_nonneg x : signed false x -> nonneg x = true.
Proof. by destruct x as [[]|[]| |[] m e]. Qed.

Lemma ceil_nonneg x : nonneg x = true -> nonneg (ceil x) = true.
Proof.
  destruct x as [[]|[]| |[] m e]; try done. intros _.
  unfold ceil. destruct (0 <=? e) eqn:He; [done|].
  apply Z.leb_gt in He. change (cond_Zopp false (Z.pos m)) with (Z.pos m).
  assert (Z.div (- Z.pos m) (2 ^ (- e)) < 0) as Hdiv.
  { apply Z.div_lt_upper_bound; [apply Z.pow_pos_nonneg; lia|lia]. }
  destruct (- (Z.div (- Z.pos m) (2 ^ (- e)))) as [|z|z] eqn:Hz; try lia.
  cbn [Z.eqb]. apply signed_false_nonneg.
  unfold binary_normalize. apply binary_round_signed.
Qed.

(** A value whose absolute value is at most [u] lies between [-u] and
    [u]. *)
Lemma leb_abs_within c u :
  nonneg u = true -> leb (abs c) u = true ->
  leb (opp u) c = true /\ leb c u = true.
Proof.
  intros Hu Hle.
  destruct c as [[]|[]| |[] mc ec], u as [[]|[]| |[] mu eu]; try done.
  - unfold leb, SFleb in *. cbn [abs SFabs opp SFopp negb] in *.
    rewrite compare_fin_fin in Hle. split; [|done].
    unfold SFcompare. change (Pos.compare_cont Eq mu mc) with (mu ?= mc)%positive.
    rewrite (Z.compare_antisym ec eu), (Pos.compare_antisym mc mu).
    destruct (ec ?= eu); try done. cbn [CompOpp] in *.
    by destruct (mc ?= mu)%positive.
Qed.

Lemma running_max_valid pts :
  (forall c, c ∈ coordinates pts -> valid c = true) ->
  valid (running_max pts) = true.
Proof.
  intros Hall. rewrite running_max_fold.
  destruct (foldl_max1_attained (coordinates pts) d0_0)
    as [->|(c & Hin & _ & ->)]; [done|].
  specialize (Hall c Hin). by destruct c.
Qed.

(** X18: the limits contain the points: when the coordinates and the
    padding are doubles and the padding is finite and at least 1.0,
    every coordinate that is not NaN lies between the lower and the
    upper bound. *)
Theorem calculate_limits_contains (names : option (list string))
    (pts : list Point2D) (padding c : double) :
  (forall c', c' ∈ coordinates pts -> valid c' = true) ->
  valid padding = true -> is_finite padding = true ->
  leb (of_int 1) padding = true ->
  c ∈ coordinates pts -> is_nan c = false ->
  exists lower upper,
    calculate_limits_cpp (matrix_of_points names pts) padding
    = Some [lower; upper] /\
    leb lower c = true /\ leb c upper = true.
Proof.
  intros Hvalid Hvp Hfp Hone Hin Hc.
  assert (pts <> []) as Hne by (intros ->; by apply elem_of_nil in Hin).
  rewrite calculate_limits_running_max by done.
  pose proof (running_max_nonneg pts) as HM.
  pose proof (running_max_valid pts Hvalid) as HvM.
  pose proof (foldl_max1_upper (coordinates pts) d0_0 c eq_refl Hin Hc) as Hle.
  rewrite <- running_max_fold in Hle.
  set (M := running_max pts) in *.
  eexists _, _. split; [done|]. apply leb_abs_within.
  - apply ceil_nonneg.
    destruct padding as [[]|[]| |[] mp ep]; try done.
    destruct M as [[]|[]| |[] mM eM]; try done.
    by apply mul_ge_self.
  - destruct padding as [[]|[]| |[] mp ep]; try done.
    destruct M as [[]|[]| |[] mM eM] eqn:HMeq; try done.
    destruct (mul_ge_self mM eM mp ep HvM Hvp Hone) as (Hge & Hvx & Hnx).
    cbv zeta in Hge, Hvx, Hnx.
    set (x := mul (S754_finite false mM eM) (S754_finite false mp ep)) in *.
    apply (leb_trans _ (S754_finite false mM eM));
      [by apply abs_nonneg|done|by apply ceil_nonneg|done|].
    apply (leb_trans _ x); [done|done|by apply ceil_nonneg|done|].
    by apply ceil_ge.
Qed.

Lemma calculate_limits_contains_witness :
  exists lower upper,
    calculate_limits_cpp
      (matrix_of_points None [(of_int 3, nan); (of_int (-5), of_int 1)])
      (div (of_int 11) (of_int 10))
    = Some [lower; upper] /\
    leb lower (of_int (-5)) = true /\ leb (of_int (-5)) upper = true.
Proof.
  apply (calculate_limits_contains None
           [(of_int 3, nan); (of_int (-5), of_int 1)]
           (div (of_int 11) (of_int 10)) (of_int (-5))).
  - intros c' Hc'. cbn in Hc'.
    repeat (apply elem_of_cons in Hc' as [->|Hc']; [reflexivity|]).
    by apply elem_of_nil in Hc'.
  - reflexivity.
  - reflexivity.
  - reflexivity.
  - cbn. right. right. left.
  - reflexivity.
Defined.
